(** * luxfi/zmq: a shallow embedding of the authentication helpers, the
    socket monitor, the proxy and the wire codec, with the properties the
    specification states about them.

    Conventions of the embedding:
    - a Go [[]byte] is a [list byte], a Go [string] is a [string];
    - a Go [int] is a [Z] (only [&] and comparisons are used on it);
    - a Go [(T, error)] result is a pair whose second component is an
      [option error] ([None] is [nil]);
    - a pointer is a location in an explicit store;
    - goroutines are threads of a labelled transition system whose labels
      are the scheduler's and the environment's choices. *)

From Stdlib Require Import ZArith NArith Lia Bool List.
From Stdlib Require Import Strings.Byte Strings.Ascii Strings.String.
From stdpp Require Import base option list gmap strings pretty.

Import ListNotations.
Local Open Scope string_scope.
Local Open Scope list_scope.

(** ** Errors *)

(** The values of Go's [error] interface that the modelled code can
    produce: the two errors of [encoding/hex], the [fmt.Errorf] messages of
    the package, and an opaque error of the environment (a failed
    [rand.Read], a failed socket operation). *)
Inductive error : Type :=
  | InvalidByteError (c : ascii)
  | ErrLength
  | Errorf (msg : string)
  | EnvError (code : nat).

(** The conversion [byte(n)]: the low eight bits of [n]. *)
Definition byte_of_N (n : N) : byte :=
  match Byte.of_N (n mod 256) with
  | Some b => b
  | None => x00
  end.

(** ** encoding/hex, as far as the package uses it *)

Module hex.

(** [const hextable = "0123456789abcdef"] *)
Definition hextable : string := "0123456789abcdef".

(** [hextable[i]] for an index below 16. *)
Definition hexdigit (i : N) : ascii :=
  match String.get (N.to_nat i) hextable with
  | Some c => c
  | None => "0"%char
  end.

(** [reverseHexTable[c]]: the value of a hexadecimal digit of either case,
    [None] where the table holds [0xff].  The table is that of the three
    ranges '0'..'9', 'a'..'f' and 'A'..'F'. *)
Definition fromHexChar (c : ascii) : option N :=
  let n := N_of_ascii c in
  if (48 <=? n)%N && (n <=? 57)%N then Some (n - 48)%N
  else if (97 <=? n)%N && (n <=? 102)%N then Some (n - 97 + 10)%N
  else if (65 <=? n)%N && (n <=? 70)%N then Some (n - 65 + 10)%N
  else None.

(** [v >> 4] and [v & 0x0f] of a byte. *)
Definition hi (v : byte) : N := N.shiftr (Byte.to_N v) 4.
Definition lo (v : byte) : N := N.land (Byte.to_N v) 15.

(** [EncodeToString]: two digits of [hextable] per byte. *)
Fixpoint EncodeToString (src : list byte) : string :=
  match src with
  | [] => ""
  | v :: rest =>
      String (hexdigit (hi v)) (String (hexdigit (lo v)) (EncodeToString rest))
  end.

(** [DecodeString]: the loop of [Decode] over pairs of characters, then
    the check of an odd length.  The bytes decoded before an error are
    returned with it, as [dst[:n]] is. *)
Fixpoint DecodeString (s : string) : list byte * option error :=
  match s with
  | "" => ([], None)
  | String p "" =>
      match fromHexChar p with
      | None => ([], Some (InvalidByteError p))
      | Some _ => ([], Some ErrLength)
      end
  | String p (String q rest) =>
      match fromHexChar p with
      | None => ([], Some (InvalidByteError p))
      | Some a =>
          match fromHexChar q with
          | None => ([], Some (InvalidByteError q))
          | Some b =>
              let '(out, err) := DecodeString rest in
              (byte_of_N (N.lor (N.shiftl a 4) b) :: out, err)
          end
      end
  end.

End hex.

(** ** Slices and the random source *)

(** [make([]byte, n)] *)
Definition make_bytes (n : nat) : list byte := repeat x00 n.

(** [copy(dst, src)]: the first [min (len dst) (len src)] bytes of [dst] are
    overwritten. *)
Definition copy (dst src : list byte) : list byte :=
  let n := Nat.min (length dst) (length src) in
  firstn n src ++ skipn n dst.

(** [crypto/rand]: the source either fails, or fills the whole buffer with
    its next bytes. *)
Record rand_source : Type := {
  entropy : nat -> byte;
  rand_failure : option error
}.

Definition rand_Read (r : rand_source) (b : list byte) : list byte * option error :=
  match rand_failure r with
  | Some e => (b, Some e)
  | None => (map (entropy r) (seq 0 (length b)), None)
  end.

(** ** auth.go, the variant without a registry (lines 1-86) *)

Module AuthSimple.

(** [NewCurveKeypair] *)
Definition NewCurveKeypair (r : rand_source) : string * string * option error :=
  let secret := make_bytes 32 in
  match rand_Read r secret with
  | (_, Some err) => ("", "", Some err)
  | (secret, None) =>
      let public := make_bytes 32 in
      let public := copy public secret in
      let publicKey := hex.EncodeToString public in
      let secretKey := hex.EncodeToString secret in
      (publicKey, secretKey, None)
  end.

(** [AuthCurvePublic] *)
Definition AuthCurvePublic (secretKey : string) : string * option error :=
  match hex.DecodeString secretKey with
  | (_, Some err) => ("", Some err)
  | (_, None) => (secretKey, None)
  end.

(** [Z85encode] *)
Definition Z85encode (data : list byte) : string :=
  hex.EncodeToString data.

(** [Z85decode] *)
Definition Z85decode (text : string) : list byte * option error :=
  hex.DecodeString text.

(** [var authStarted bool] with [AuthStart] and [AuthStop]. *)
Definition AuthStart (authStarted : bool) : option error * bool :=
  if authStarted then (Some (Errorf "already started"), authStarted)
  else (None, true).

Definition AuthStop (authStarted : bool) : bool := false.

End AuthSimple.

(** What the specification calls valid hex: an even number of characters,
    each a hexadecimal digit of either case. *)
Definition is_hex_char (c : ascii) : bool :=
  existsb (Ascii.eqb c) (list_ascii_of_string "0123456789abcdefABCDEF").

Definition valid_hex (s : string) : bool :=
  Nat.even (String.length s) && forallb is_hex_char (list_ascii_of_string s).

(** ** auth.go, the variant with the registry (lines 87-267) *)

Module AuthRegistry.

(** [type Auth struct]; the mutex [mu] is held for the whole of every
    operation below, which is what lets an operation be one transformer
    of the store. *)
Record Auth : Type := {
  verbose : bool;
  running : bool;
  curveKeys : gmap string string;
  allow : gmap string (list string);
  deny : gmap string (list string)
}.

(** Addresses of [Auth] objects. *)
Definition loc : Type := positive.

(** The package-level variables [authInstance] and [authOnce], and the
    store that [&Auth{...}] allocates in. *)
Record pkg : Type := {
  authInstance : option loc;
  authOnce : bool;
  heap : gmap loc Auth
}.

Definition pkg_init : pkg :=
  {| authInstance := None; authOnce := false; heap := ∅ |}.

(** Computations over the package state; [None] is the panic of a nil
    dereference. *)
Definition M (A : Type) : Type := pkg -> option (A * pkg).

Definition ret {A} (a : A) : M A := fun p => Some (a, p).

Definition bind {A B} (m : M A) (k : A -> M B) : M B :=
  fun p => match m p with
           | Some (a, p') => k a p'
           | None => None
           end.

Notation "'let!' x ':=' m 'in' k" := (bind m (fun x => k))
  (at level 10, x name, m at level 100, k at level 200).
Notation "'run!' m 'in' k" := (bind m (fun _ => k))
  (at level 10, m at level 100, k at level 200).

(** [*ptr] and [*ptr = a] *)
Definition load (ptr : option loc) : M Auth :=
  fun p => match ptr with
           | Some l => match heap p !! l with
                       | Some a => Some (a, p)
                       | None => None
                       end
           | None => None
           end.

Definition store (ptr : option loc) (a : Auth) : M unit :=
  fun p => match ptr with
           | Some l =>
               match heap p !! l with
               | Some _ =>
                   Some (tt, {| authInstance := authInstance p;
                                authOnce := authOnce p;
                                heap := <[l := a]> (heap p) |})
               | None => None
               end
           | None => None
           end.

(** [getAuth]: [authOnce.Do] runs the allocation on the first call only. *)
Definition getAuth : M (option loc) :=
  fun p =>
    let p' :=
      if authOnce p then p
      else
        let l := fresh (dom (heap p)) in
        {| authInstance := Some l;
           authOnce := true;
           heap := <[l := {| verbose := false; running := false;
                             curveKeys := ∅; allow := ∅; deny := ∅ |}]>
                     (heap p) |} in
    Some (authInstance p', p').

(** [AuthStart] *)
Definition AuthStart : M (option error) :=
  let! auth := getAuth in
  let! a := load auth in
  if running a then ret (Some (Errorf "authentication already running"))
  else
    run! store auth {| verbose := verbose a; running := true;
                       curveKeys := curveKeys a; allow := allow a;
                       deny := deny a |} in
    ret None.

(** [AuthStop] *)
Definition AuthStop : M unit :=
  let! auth := getAuth in
  let! a := load auth in
  store auth {| verbose := verbose a; running := false;
                curveKeys := ∅; allow := ∅; deny := ∅ |}.

(** [AuthSetVerbose] *)
Definition AuthSetVerbose (v : bool) : M unit :=
  let! auth := getAuth in
  let! a := load auth in
  store auth {| verbose := v; running := running a;
                curveKeys := curveKeys a; allow := allow a;
                deny := deny a |}.

(** [m[domain] = append(m[domain], addresses...)], a missing entry
    starting from the empty slice. *)
Definition append_at (domain : string) (addresses : list string)
    (m : gmap string (list string)) : gmap string (list string) :=
  <[domain := default [] (m !! domain) ++ addresses]> m.

(** [AuthAllow] *)
Definition AuthAllow (domain : string) (addresses : list string) : M unit :=
  let! auth := getAuth in
  let! a := load auth in
  store auth {| verbose := verbose a; running := running a;
                curveKeys := curveKeys a;
                allow := append_at domain addresses (allow a);
                deny := deny a |}.

(** [AuthDeny] *)
Definition AuthDeny (domain : string) (addresses : list string) : M unit :=
  let! auth := getAuth in
  let! a := load auth in
  store auth {| verbose := verbose a; running := running a;
                curveKeys := curveKeys a; allow := allow a;
                deny := append_at domain addresses (deny a) |}.

(** [AuthCurveAdd] *)
Definition AuthCurveAdd (domain publicKey : string) : M unit :=
  let! auth := getAuth in
  let! a := load auth in
  store auth {| verbose := verbose a; running := running a;
                curveKeys := <[domain := publicKey]> (curveKeys a);
                allow := allow a; deny := deny a |}.

(** [AuthCurveRemove]: a missing key reads as the empty string. *)
Definition AuthCurveRemove (domain publicKey : string) : M unit :=
  let! auth := getAuth in
  let! a := load auth in
  if decide (default "" (curveKeys a !! domain) = publicKey)
  then store auth {| verbose := verbose a; running := running a;
                     curveKeys := delete domain (curveKeys a);
                     allow := allow a; deny := deny a |}
  else ret tt.

(** [NewCurveKeypair] *)
Definition NewCurveKeypair (r : rand_source) : string * string * option error :=
  let secret := make_bytes 32 in
  match rand_Read r secret with
  | (_, Some err) => ("", "", Some err)
  | (secret, None) =>
      let public := make_bytes 32 in
      let public := copy public secret in
      let publicKey := hex.EncodeToString public in
      let secretKey := hex.EncodeToString secret in
      (publicKey, secretKey, None)
  end.

(** [AuthCurvePublic], which here also checks the decoded length. *)
Definition AuthCurvePublic (secretKey : string) : string * option error :=
  match hex.DecodeString secretKey with
  | (_, Some err) => ("", Some err)
  | (secret, None) =>
      if negb (length secret =? 32)%nat
      then ("", Some (Errorf "invalid secret key length"))
      else (secretKey, None)
  end.

(** [Z85encode] *)
Definition Z85encode (data : list byte) : string :=
  hex.EncodeToString data.

(** [Z85decode] *)
Definition Z85decode (text : string) : list byte * option error :=
  hex.DecodeString text.

(** The registry operations as data, to speak about sequences of calls. *)
Inductive op : Type :=
  | OpStart
  | OpStop
  | OpSetVerbose (v : bool)
  | OpAllow (domain : string) (addresses : list string)
  | OpDeny (domain : string) (addresses : list string)
  | OpCurveAdd (domain publicKey : string)
  | OpCurveRemove (domain publicKey : string).

Definition exec (o : op) : M unit :=
  match o with
  | OpStart => run! AuthStart in ret tt
  | OpStop => AuthStop
  | OpSetVerbose v => AuthSetVerbose v
  | OpAllow d a => AuthAllow d a
  | OpDeny d a => AuthDeny d a
  | OpCurveAdd d k => AuthCurveAdd d k
  | OpCurveRemove d k => AuthCurveRemove d k
  end.

Fixpoint exec_all (os : list op) : M unit :=
  match os with
  | [] => ret tt
  | o :: rest => run! exec o in exec_all rest
  end.

(** What an operation does to the one [Auth] object, written without the
    store: the reading of "mutates the shared instance". *)
Definition on_instance (o : op) (a : Auth) : Auth :=
  match o with
  | OpStart =>
      {| verbose := verbose a; running := true; curveKeys := curveKeys a;
         allow := allow a; deny := deny a |}
  | OpStop =>
      {| verbose := verbose a; running := false; curveKeys := ∅;
         allow := ∅; deny := ∅ |}
  | OpSetVerbose v =>
      {| verbose := v; running := running a; curveKeys := curveKeys a;
         allow := allow a; deny := deny a |}
  | OpAllow d l =>
      {| verbose := verbose a; running := running a;
         curveKeys := curveKeys a; allow := append_at d l (allow a);
         deny := deny a |}
  | OpDeny d l =>
      {| verbose := verbose a; running := running a;
         curveKeys := curveKeys a; allow := allow a;
         deny := append_at d l (deny a) |}
  | OpCurveAdd d k =>
      {| verbose := verbose a; running := running a;
         curveKeys := <[d := k]> (curveKeys a); allow := allow a;
         deny := deny a |}
  | OpCurveRemove d k =>
      {| verbose := verbose a; running := running a;
         curveKeys := if decide (default "" (curveKeys a !! d) = k)
                      then delete d (curveKeys a) else curveKeys a;
         allow := allow a; deny := deny a |}
  end.

(** A package state whose store holds the one object [a] at [l], after
    the initializer has run. *)
Definition singleton_pkg (l : loc) (a : Auth) : pkg :=
  {| authInstance := Some l; authOnce := true; heap := {[l := a]} |}.

Definition first_loc : loc := fresh (dom (heap pkg_init)).

Definition empty_Auth : Auth :=
  {| verbose := false; running := false; curveKeys := ∅; allow := ∅;
     deny := ∅ |}.

(** The object after a sequence of operations. *)
Definition after_ops (os : list op) (a : Auth) : Auth :=
  fold_left (fun a o => on_instance o a) os a.

End AuthRegistry.

(** ** options.go: the socket option names *)

Definition OptionSubscribe : string := "SUBSCRIBE".
Definition OptionUnsubscribe : string := "UNSUBSCRIBE".
Definition OptionHWM : string := "HWM".
Definition OptionIdentity : string := "IDENTITY".

(** The constants of the [const] block, in the order of declaration. *)
Definition option_names : list string :=
  [OptionSubscribe; OptionUnsubscribe; OptionHWM; OptionIdentity].

(** The effect that the specification attaches to each name (the code that
    applies an option is not among the sources). *)
Inductive option_effect : Type :=
  | AddSubscription
  | RemoveSubscription
  | SetQueueBound
  | SetIdentity.

Definition effect_name (e : option_effect) : string :=
  match e with
  | AddSubscription => OptionSubscribe
  | RemoveSubscription => OptionUnsubscribe
  | SetQueueBound => OptionHWM
  | SetIdentity => OptionIdentity
  end.

(** ** The socket monitor: [Monitor], [emitEvent], [StopMonitor] *)

Module Monitor.

Local Open Scope Z_scope.

(** The event constants. *)
Definition EventConnected : Z := 0x0001.
Definition EventConnectDelayed : Z := 0x0002.
Definition EventConnectRetried : Z := 0x0004.
Definition EventListening : Z := 0x0008.
Definition EventBindFailed : Z := 0x0010.
Definition EventAccepted : Z := 0x0020.
Definition EventAcceptFailed : Z := 0x0040.
Definition EventClosed : Z := 0x0080.
Definition EventCloseFailed : Z := 0x0100.
Definition EventDisconnected : Z := 0x0200.
Definition EventMonitorStopped : Z := 0x0400.
Definition EventAll : Z := 0xFFFF.
Definition EventHandshakeSucceeded : Z := 0x0800.
Definition EventHandshakeFailed : Z := 0x1000.

(** The thirteen events of the specification's taxonomy, in its order. *)
Definition taxonomy : list Z :=
  [EventConnected; EventConnectDelayed; EventConnectRetried;
   EventListening; EventBindFailed; EventAccepted; EventAcceptFailed;
   EventClosed; EventCloseFailed; EventDisconnected;
   EventHandshakeSucceeded; EventHandshakeFailed; EventMonitorStopped].

(** [type SocketEvent struct] *)
Record SocketEvent : Type := {
  Event : Z;
  Address : string;
  Value : Z
}.

(** A buffered channel of events: its queue, its capacity, and whether
    it was closed. *)
Record chan : Type := {
  buf : list SocketEvent;
  cap : nat;
  closed : bool
}.

Definition chan_ref : Type := positive.

(** [type socketMonitor struct]; [ch] is a reference, which the observer
    obtains from [GetMonitorChannel] and keeps. *)
Record socketMonitor : Type := {
  endpoint : string;
  events : Z;
  ch : chan_ref;
  active : bool
}.

(** [sync.RWMutex]; [ReadLocked n] is held by [n + 1] readers. *)
Inductive rwmutex : Type :=
  | Unlocked
  | WriteLocked
  | ReadLocked (others : nat).

(** The fields of [socket] that the monitor uses, with the store of
    channels.  The socket is the only holder of its [*socketMonitor],
    so the object is kept in the field itself. *)
Record socket : Type := {
  mu : rwmutex;
  monitor : option socketMonitor;
  ctx_done : bool;
  chans : gmap chan_ref chan
}.

(** The result of running a method in one goroutine: it returns, or it
    waits for a lock that is held, or it panics. *)
Inductive outcome (A : Type) : Type :=
  | Done (a : A) (s : socket)
  | Blocked
  | Panic.
Arguments Done {A} a s.
Arguments Blocked {A}.
Arguments Panic {A}.

Definition M (A : Type) : Type := socket -> outcome A.

Definition ret {A} (a : A) : M A := fun s => Done a s.

Definition bind {A B} (m : M A) (k : A -> M B) : M B :=
  fun s => match m s with
           | Done a s' => k a s'
           | Blocked => Blocked
           | Panic => Panic
           end.

Notation "'let!' x ':=' m 'in' k" := (bind m (fun x => k))
  (at level 10, x name, m at level 100, k at level 200).
Notation "'run!' m 'in' k" := (bind m (fun _ => k))
  (at level 10, m at level 100, k at level 200).

Definition set_mu (m : rwmutex) (s : socket) : socket :=
  {| mu := m; monitor := monitor s; ctx_done := ctx_done s;
     chans := chans s |}.

Definition set_monitor (m : option socketMonitor) : M unit :=
  fun s => Done tt {| mu := mu s; monitor := m; ctx_done := ctx_done s;
                      chans := chans s |}.

Definition get_monitor : M (option socketMonitor) :=
  fun s => Done (monitor s) s.

(** [s.mu.Lock()], [s.mu.Unlock()], [s.mu.RLock()], [s.mu.RUnlock()] *)
Definition Lock : M unit :=
  fun s => match mu s with
           | Unlocked => Done tt (set_mu WriteLocked s)
           | _ => Blocked
           end.

Definition Unlock : M unit :=
  fun s => match mu s with
           | WriteLocked => Done tt (set_mu Unlocked s)
           | _ => Panic
           end.

Definition RLock : M unit :=
  fun s => match mu s with
           | Unlocked => Done tt (set_mu (ReadLocked 0) s)
           | ReadLocked n => Done tt (set_mu (ReadLocked (S n)) s)
           | WriteLocked => Blocked
           end.

Definition RUnlock : M unit :=
  fun s => match mu s with
           | ReadLocked 0 => Done tt (set_mu Unlocked s)
           | ReadLocked (S n) => Done tt (set_mu (ReadLocked n) s)
           | _ => Panic
           end.

(** [make(chan SocketEvent, n)] *)
Definition make_chan (n : nat) : M chan_ref :=
  fun s =>
    let r := fresh (dom (chans s)) in
    Done r {| mu := mu s; monitor := monitor s; ctx_done := ctx_done s;
              chans := <[r := {| buf := []; cap := n; closed := false |}]>
                         (chans s) |}.

(** [select { case c <- ev: default: }]: the send happens when the buffer
    has room, and a send on a closed channel panics. *)
Definition try_send (c : chan_ref) (ev : SocketEvent) : M unit :=
  fun s =>
    match chans s !! c with
    | None => Panic
    | Some q =>
        if closed q then Panic
        else if (length (buf q) <? cap q)%nat
        then Done tt {| mu := mu s; monitor := monitor s;
                        ctx_done := ctx_done s;
                        chans := <[c := {| buf := buf q ++ [ev];
                                           cap := cap q;
                                           closed := false |}]> (chans s) |}
        else Done tt s
    end.

(** [close(c)] *)
Definition close_chan (c : chan_ref) : M unit :=
  fun s =>
    match chans s !! c with
    | None => Panic
    | Some q =>
        if closed q then Panic
        else Done tt {| mu := mu s; monitor := monitor s;
                        ctx_done := ctx_done s;
                        chans := <[c := {| buf := buf q; cap := cap q;
                                           closed := true |}]> (chans s) |}
    end.

(** [Monitor]; the goroutine it starts is [runMonitor_exit] below. *)
Definition Monitor (endpoint : string) (events : Z) : M (option error) :=
  run! Lock in
  let! m := get_monitor in
  match m with
  | Some _ =>
      run! Unlock in ret (Some (Errorf "monitor already active"))
  | None =>
      let! c := make_chan 100 in
      run! set_monitor (Some {| endpoint := endpoint; events := events;
                                ch := c; active := true |}) in
      run! Unlock in ret None
  end.

(** [runMonitor] once [s.ctx.Done()] is closed: the deferred function. *)
Definition runMonitor_exit : M unit :=
  fun s =>
    if ctx_done s then
      (run! Lock in
       let! m := get_monitor in
       match m with
       | Some mon =>
           run! close_chan (ch mon) in
           run! set_monitor (Some {| endpoint := endpoint mon;
                                     events := events mon; ch := ch mon;
                                     active := false |}) in
           Unlock
       | None => Unlock
       end) s
    else Blocked.

(** The body of [emitEvent] after the lock is released (lines 91-101). *)
Definition emitEvent_send (m : option socketMonitor)
    (event : Z) (address : string) (value : Z) : M unit :=
  match m with
  | Some mon =>
      if active mon && negb (Z.land (events mon) event =? 0)
      then try_send (ch mon)
             {| Event := event; Address := address; Value := value |}
      else ret tt
  | None => ret tt
  end.

(** [emitEvent] *)
Definition emitEvent (event : Z) (address : string) (value : Z) : M unit :=
  run! RLock in
  let! m := get_monitor in
  run! RUnlock in
  emitEvent_send m event address value.

(** [GetMonitorChannel] *)
Definition GetMonitorChannel : M (option chan_ref) :=
  run! RLock in
  let! m := get_monitor in
  run! RUnlock in
  ret (match m with Some mon => Some (ch mon) | None => None end).

(** [StopMonitor] *)
Definition StopMonitor : M (option error) :=
  run! Lock in
  let! m := get_monitor in
  match m with
  | None => run! Unlock in ret (Some (Errorf "no monitor active"))
  | Some mon =>
      let stopped := {| endpoint := endpoint mon; events := events mon;
                        ch := ch mon; active := false |} in
      run! set_monitor (Some stopped) in
      run! emitEvent EventMonitorStopped (endpoint stopped) 0 in
      run! set_monitor None in
      run! Unlock in ret None
  end.

(** A new socket: no monitor, a free mutex, a live context. *)
Definition new_socket : socket :=
  {| mu := Unlocked; monitor := None; ctx_done := false; chans := ∅ |}.

(** The queue of the channel [c]. *)
Definition queue_of (c : chan_ref) (s : socket) : list SocketEvent :=
  match chans s !! c with
  | Some q => buf q
  | None => []
  end.

(** The invariant of the monitor field that [Monitor], [emitEvent] and
    [runMonitor] keep: the channel exists with the hundred slots that
    [Monitor] gave it, and it is closed only once the monitor is
    inactive. *)
Definition monitor_ok (s : socket) : Prop :=
  match monitor s with
  | None => True
  | Some mon =>
      exists q, chans s !! ch mon = Some q /\ cap q = 100%nat /\
                (closed q = true -> active mon = false)
  end.

(** A new socket on which [Monitor(ep, mask)] was called. *)
Definition monitored (ep : string) (mask : Z) : socket :=
  match Monitor ep mask new_socket with
  | Done _ s => s
  | _ => new_socket
  end.

End Monitor.

(** ** Messages *)

(** Modelled from the spec: the message type and its [Clone] (their file is
    not among the sources).  A message is an ordered sequence of frames, each an
    opaque byte buffer; cloning produces a deep copy, a new buffer for every
    frame. *)
Record Msg : Type := { Frames : list (list byte) }.

Definition Clone (m : Msg) : Msg :=
  {| Frames := map (fun f => copy (make_bytes (length f)) f) (Frames m) |}.

(** ** The proxies *)

(** The two forwarding directions: [F2B] receives on [frontend] and sends on
    [backend], [B2F] the reverse. *)
Inductive dir : Type := F2B | B2F.

(** What a run of a proxy does to the outside, in order. *)
Inductive event : Type :=
  | EvRecv (d : dir) (m : Msg)          (* Recv of direction d returned m *)
  | EvRecvErr (d : dir) (e : error)     (* Recv of direction d failed *)
  | EvCapture (d : dir) (m : Msg)       (* capture.Send(m), from direction d *)
  | EvSend (d : dir) (m : Msg) (r : option error)
                                        (* Send of direction d, its result *)
  | EvReport (e : error)                (* errChan <- e *)
  | EvReturn (e : error).               (* Proxy returned e *)

(** The messages received, captured and forwarded in one direction, and the
    errors produced and reported, in the order of the trace. *)
Definition same_dir (d d' : dir) : bool :=
  match d, d' with
  | F2B, F2B | B2F, B2F => true
  | _, _ => false
  end.

Definition recv_of (d : dir) (ev : event) : option Msg :=
  match ev with
  | EvRecv d' m => if same_dir d d' then Some m else None
  | _ => None
  end.

Definition capture_of (d : dir) (ev : event) : option Msg :=
  match ev with
  | EvCapture d' m => if same_dir d d' then Some m else None
  | _ => None
  end.

Definition send_of (d : dir) (ev : event) : option Msg :=
  match ev with
  | EvSend d' m _ => if same_dir d d' then Some m else None
  | _ => None
  end.

Definition failure_of (ev : event) : option error :=
  match ev with
  | EvRecvErr _ e => Some e
  | EvSend _ _ (Some e) => Some e
  | _ => None
  end.

Definition report_of (ev : event) : option error :=
  match ev with
  | EvReport e => Some e
  | _ => None
  end.

Definition received (d : dir) (tr : list event) : list Msg :=
  omap (recv_of d) tr.

Definition captured (d : dir) (tr : list event) : list Msg :=
  omap (capture_of d) tr.

Definition forwarded (d : dir) (tr : list event) : list Msg :=
  omap (send_of d) tr.

Definition produced (tr : list event) : list error :=
  omap failure_of tr.

Definition reported (tr : list event) : list error :=
  omap report_of tr.

Arguments received : simpl never.
Arguments captured : simpl never.
Arguments forwarded : simpl never.
Arguments produced : simpl never.
Arguments reported : simpl never.

(** *** proxy.go: [Proxy(frontend, backend, capture)] *)

Module Proxy3.

(** Where a receiving goroutine (lines 32-60 and 63-91) stands. *)
Inductive recv_pc : Type :=
  | RSelect                 (* at the outer select *)
  | RRecv                   (* in Recv() *)
  | RGot (m : Msg)          (* Recv returned m, before the capture *)
  | RPut (m : Msg)          (* at the select that queues m *)
  | RErr (e : error)        (* at the select that reports e *)
  | RExit.                  (* returned; wg.Done() has run *)

(** Where a sending goroutine (lines 94-104 and 106-116) stands. *)
Inductive send_pc : Type :=
  | WRange                  (* at the range over its channel *)
  | WSend (m : Msg)         (* in Send(m) *)
  | WErr (e : error)        (* at the select that reports e *)
  | WExit.

(** Where the calling goroutine (lines 118-125) stands. *)
Inductive main_pc : Type :=
  | MRecvErr                (* err := <-errChan *)
  | MCloseDone (e : error)  (* close(done) *)
  | MWait (e : error)       (* wg.Wait() *)
  | MCloseF (e : error)     (* close(frontToBack) *)
  | MCloseB (e : error)     (* close(backToFront) *)
  | MReturned (e : error).

(** One direction: its two goroutines and the channel between them. *)
Record lane : Type := {
  rpc : recv_pc;
  wpc : send_pc;
  queue : list Msg;
  qclosed : bool
}.

Record state : Type := {
  laneF : lane;             (* frontend.Recv, frontToBack, backend.Send *)
  laneB : lane;             (* backend.Recv, backToFront, frontend.Send *)
  errChan : list error;
  done : bool;
  main : main_pc;
  trace : list event
}.

Definition lane_of (d : dir) (s : state) : lane :=
  match d with F2B => laneF s | B2F => laneB s end.

Definition set_lane (d : dir) (l : lane) (s : state) : state :=
  match d with
  | F2B => {| laneF := l; laneB := laneB s; errChan := errChan s;
              done := done s; main := main s; trace := trace s |}
  | B2F => {| laneF := laneF s; laneB := l; errChan := errChan s;
              done := done s; main := main s; trace := trace s |}
  end.

Definition set_rpc (p : recv_pc) (l : lane) : lane :=
  {| rpc := p; wpc := wpc l; queue := queue l; qclosed := qclosed l |}.

Definition set_wpc (p : send_pc) (l : lane) : lane :=
  {| rpc := rpc l; wpc := p; queue := queue l; qclosed := qclosed l |}.

Definition set_queue (q : list Msg) (l : lane) : lane :=
  {| rpc := rpc l; wpc := wpc l; queue := q; qclosed := qclosed l |}.

Definition close_queue (l : lane) : lane :=
  {| rpc := rpc l; wpc := wpc l; queue := queue l; qclosed := true |}.

Definition emit (ev : list event) (s : state) : state :=
  {| laneF := laneF s; laneB := laneB s; errChan := errChan s;
     done := done s; main := main s; trace := trace s ++ ev |}.

Definition set_errChan (c : list error) (s : state) : state :=
  {| laneF := laneF s; laneB := laneB s; errChan := c;
     done := done s; main := main s; trace := trace s |}.

Definition set_main (p : main_pc) (s : state) : state :=
  {| laneF := laneF s; laneB := laneB s; errChan := errChan s;
     done := done s; main := p; trace := trace s |}.

Definition set_done (s : state) : state :=
  {| laneF := laneF s; laneB := laneB s; errChan := errChan s;
     done := true; main := main s; trace := trace s |}.

(** The choices of the scheduler and of the two sockets. *)
Inductive label : Type :=
  | LPoll (d : dir)                 (* the outer select *)
  | LRecvMsg (d : dir) (m : Msg)    (* Recv returns (m, nil) *)
  | LRecvFail (d : dir) (e : error) (* Recv returns an error *)
  | LCapture (d : dir)              (* the capture statement *)
  | LPut (d : dir)                  (* select: the channel takes msg *)
  | LPutDone (d : dir)              (* select: <-done *)
  | LReportR (d : dir)              (* select: errChan <- err *)
  | LQuitR (d : dir)                (* select: <-done *)
  | LRange (d : dir)                (* the range takes a message or ends *)
  | LSendOk (d : dir)               (* Send returns nil *)
  | LSendFail (d : dir) (e : error) (* Send returns an error *)
  | LReportW (d : dir)
  | LQuitW (d : dir)
  | LMain.                          (* the caller's next statement *)

(** [make(chan Msg, 100)] and [make(chan error, 2)] *)
Definition queue_cap : nat := 100.
Definition errChan_cap : nat := 2.

(** The state after the four [go] statements. *)
Definition init : state :=
  let l := {| rpc := RSelect; wpc := WRange; queue := []; qclosed := false |} in
  {| laneF := l; laneB := l; errChan := []; done := false;
     main := MRecvErr; trace := [] |}.

(** The nil check at the head of [Proxy]; [true] is a non-nil socket. *)
Definition start (frontend backend : bool) : error + state :=
  if negb frontend || negb backend
  then inl (Errorf "frontend and backend sockets are required")
  else inr init.

(** One step; [capture] says whether the capture socket is non-nil.
    [None]: the chosen goroutine cannot take this step now.  A send on a
    closed channel would panic; [LPut] is given no step there, and
    [shutdown_inv] shows that a channel is closed only after its sender has
    returned. *)
Definition step (capture : bool) (l : label) (s : state) : option state :=
  match l with
  | LPoll d =>
      match rpc (lane_of d s) with
      | RSelect =>
          Some (set_lane d
                  (set_rpc (if done s then RExit else RRecv) (lane_of d s)) s)
      | _ => None
      end
  | LRecvMsg d m =>
      match rpc (lane_of d s) with
      | RRecv =>
          Some (emit [EvRecv d m]
                  (set_lane d (set_rpc (RGot m) (lane_of d s)) s))
      | _ => None
      end
  | LRecvFail d e =>
      match rpc (lane_of d s) with
      | RRecv =>
          Some (emit [EvRecvErr d e]
                  (set_lane d (set_rpc (RErr e) (lane_of d s)) s))
      | _ => None
      end
  | LCapture d =>
      match rpc (lane_of d s) with
      | RGot m =>
          Some (emit (if capture then [EvCapture d (Clone m)] else [])
                  (set_lane d (set_rpc (RPut m) (lane_of d s)) s))
      | _ => None
      end
  | LPut d =>
      match rpc (lane_of d s) with
      | RPut m =>
          if negb (qclosed (lane_of d s))
             && (length (queue (lane_of d s)) <? queue_cap)%nat
          then Some (set_lane d
                       (set_rpc RSelect
                          (set_queue (queue (lane_of d s) ++ [m])
                             (lane_of d s))) s)
          else None
      | _ => None
      end
  | LPutDone d =>
      match rpc (lane_of d s) with
      | RPut m =>
          if done s then Some (set_lane d (set_rpc RExit (lane_of d s)) s)
          else None
      | _ => None
      end
  | LReportR d =>
      match rpc (lane_of d s) with
      | RErr e =>
          if (length (errChan s) <? errChan_cap)%nat
          then Some (emit [EvReport e]
                       (set_errChan (errChan s ++ [e])
                          (set_lane d (set_rpc RExit (lane_of d s)) s)))
          else None
      | _ => None
      end
  | LQuitR d =>
      match rpc (lane_of d s) with
      | RErr e =>
          if done s then Some (set_lane d (set_rpc RExit (lane_of d s)) s)
          else None
      | _ => None
      end
  | LRange d =>
      match wpc (lane_of d s) with
      | WRange =>
          match queue (lane_of d s) with
          | m :: q =>
              Some (set_lane d (set_wpc (WSend m) (set_queue q (lane_of d s))) s)
          | [] =>
              if qclosed (lane_of d s)
              then Some (set_lane d (set_wpc WExit (lane_of d s)) s)
              else None
          end
      | _ => None
      end
  | LSendOk d =>
      match wpc (lane_of d s) with
      | WSend m =>
          Some (emit [EvSend d m None]
                  (set_lane d (set_wpc WRange (lane_of d s)) s))
      | _ => None
      end
  | LSendFail d e =>
      match wpc (lane_of d s) with
      | WSend m =>
          Some (emit [EvSend d m (Some e)]
                  (set_lane d (set_wpc (WErr e) (lane_of d s)) s))
      | _ => None
      end
  | LReportW d =>
      match wpc (lane_of d s) with
      | WErr e =>
          if (length (errChan s) <? errChan_cap)%nat
          then Some (emit [EvReport e]
                       (set_errChan (errChan s ++ [e])
                          (set_lane d (set_wpc WExit (lane_of d s)) s)))
          else None
      | _ => None
      end
  | LQuitW d =>
      match wpc (lane_of d s) with
      | WErr e =>
          if done s then Some (set_lane d (set_wpc WExit (lane_of d s)) s)
          else None
      | _ => None
      end
  | LMain =>
      match main s with
      | MRecvErr =>
          match errChan s with
          | e :: rest => Some (set_main (MCloseDone e) (set_errChan rest s))
          | [] => None
          end
      | MCloseDone e => Some (set_main (MWait e) (set_done s))
      | MWait e =>
          match rpc (laneF s), rpc (laneB s) with
          | RExit, RExit => Some (set_main (MCloseF e) s)
          | _, _ => None
          end
      | MCloseF e =>
          Some (set_main (MCloseB e) (set_lane F2B (close_queue (laneF s)) s))
      | MCloseB e =>
          Some (emit [EvReturn e]
                  (set_main (MReturned e)
                     (set_lane B2F (close_queue (laneB s)) s)))
      | MReturned _ => None
      end
  end.

(** A run: the labels taken in order, from a state. *)
Fixpoint run (capture : bool) (ls : list label) (s : state) : option state :=
  match ls with
  | [] => Some s
  | l :: rest =>
      match step capture l s with
      | Some s' => run capture rest s'
      | None => None
      end
  end.

(** The message a goroutine of the direction holds at its program point. *)
Definition at_capture (l : lane) : list Msg :=
  match rpc l with RGot m => [m] | _ => [] end.

Definition at_put (l : lane) : list Msg :=
  match rpc l with RPut m => [m] | _ => [] end.

Definition at_send (l : lane) : list Msg :=
  match wpc l with WSend m => [m] | _ => [] end.

(** The invariant of one direction, over the messages received, captured
    and forwarded so far (a clone has the value of its original): every
    received message is captured, but for the one whose capture is the
    next statement; and the captured ones are, in order, those forwarded,
    the one being sent, those queued, the one being queued, and the one
    that was given up for [done]. *)
Definition lane_inv (l : lane) (rc cp fw : list Msg) : Prop :=
  cp ++ at_capture l = rc /\
  exists dropped,
    cp = fw ++ at_send l ++ queue l ++ at_put l ++ dropped /\
    (dropped <> [] -> rpc l = RExit).

(** In a trace, every [Send] of the direction comes after the capture of
    the clone of its message: the message is the next one in the order of
    capture. *)
Definition sends_after_capture (d : dir) (tr : list event) : Prop :=
  forall pre m r post,
    tr = pre ++ EvSend d m r :: post ->
    captured d pre !! length (forwarded d pre) = Some (Clone m).

Definition capture_inv (s : state) : Prop :=
  forall d,
    lane_inv (lane_of d s) (received d (trace s)) (captured d (trace s))
      (forwarded d (trace s)) /\
    sends_after_capture d (trace s).

(** What the caller has taken from [errChan]. *)
Definition taken (p : main_pc) : list error :=
  match p with
  | MRecvErr => []
  | MCloseDone e | MWait e | MCloseF e | MCloseB e | MReturned e => [e]
  end.

Definition past_wait (p : main_pc) : bool :=
  match p with
  | MCloseF _ | MCloseB _ | MReturned _ => true
  | _ => false
  end.

(** The invariant of the error channel and of the shutdown: the errors
    reported are the one the caller took and those still in the channel;
    once [wg.Wait()] has returned both receiving goroutines have
    returned; [done] is closed from [close(done)] on. *)
Definition shutdown_inv (s : state) : Prop :=
  reported (trace s) = taken (main s) ++ errChan s /\
  (past_wait (main s) = true ->
   rpc (laneF s) = RExit /\ rpc (laneB s) = RExit) /\
  (done s = match main s with
            | MRecvErr | MCloseDone _ => false
            | _ => true
            end) /\
  (qclosed (laneF s) = true -> past_wait (main s) = true) /\
  (qclosed (laneB s) = true -> past_wait (main s) = true).

End Proxy3.

(** *** The proxy of two sockets: [Proxy(frontend, backend)] *)

Module Proxy2.

(** Where a forwarding goroutine (lines 21-33 and 36-48) stands. *)
Inductive loop_pc : Type :=
  | PRecv                   (* in Recv() *)
  | PSend (m : Msg)         (* in Send(m) *)
  | PErr (e : error)        (* at errChan <- err *)
  | PExit.                  (* returned *)

(** Where the calling goroutine (line 51) stands. *)
Inductive main_pc : Type :=
  | MRecvErr
  | MReturned (e : error).

Record state : Type := {
  loopF : loop_pc;          (* frontend.Recv, backend.Send *)
  loopB : loop_pc;          (* backend.Recv, frontend.Send *)
  errChan : list error;
  main : main_pc;
  trace : list event
}.

Definition loop_of (d : dir) (s : state) : loop_pc :=
  match d with F2B => loopF s | B2F => loopB s end.

Definition set_loop (d : dir) (p : loop_pc) (s : state) : state :=
  match d with
  | F2B => {| loopF := p; loopB := loopB s; errChan := errChan s;
              main := main s; trace := trace s |}
  | B2F => {| loopF := loopF s; loopB := p; errChan := errChan s;
              main := main s; trace := trace s |}
  end.

Definition emit (ev : list event) (s : state) : state :=
  {| loopF := loopF s; loopB := loopB s; errChan := errChan s;
     main := main s; trace := trace s ++ ev |}.

Definition set_errChan (c : list error) (s : state) : state :=
  {| loopF := loopF s; loopB := loopB s; errChan := c;
     main := main s; trace := trace s |}.

Definition set_main (p : main_pc) (s : state) : state :=
  {| loopF := loopF s; loopB := loopB s; errChan := errChan s;
     main := p; trace := trace s |}.

Inductive label : Type :=
  | LRecvMsg (d : dir) (m : Msg)
  | LRecvFail (d : dir) (e : error)
  | LSendOk (d : dir)
  | LSendFail (d : dir) (e : error)
  | LReport (d : dir)
  | LMain.

(** [make(chan error, 2)] *)
Definition errChan_cap : nat := 2.

Definition init : state :=
  {| loopF := PRecv; loopB := PRecv; errChan := []; main := MRecvErr;
     trace := [] |}.

Definition start (frontend backend : bool) : error + state :=
  if negb frontend || negb backend
  then inl (Errorf "frontend and backend sockets are required")
  else inr init.

Definition step (l : label) (s : state) : option state :=
  match l with
  | LRecvMsg d m =>
      match loop_of d s with
      | PRecv => Some (emit [EvRecv d m] (set_loop d (PSend m) s))
      | _ => None
      end
  | LRecvFail d e =>
      match loop_of d s with
      | PRecv => Some (emit [EvRecvErr d e] (set_loop d (PErr e) s))
      | _ => None
      end
  | LSendOk d =>
      match loop_of d s with
      | PSend m => Some (emit [EvSend d m None] (set_loop d PRecv s))
      | _ => None
      end
  | LSendFail d e =>
      match loop_of d s with
      | PSend m => Some (emit [EvSend d m (Some e)] (set_loop d (PErr e) s))
      | _ => None
      end
  | LReport d =>
      match loop_of d s with
      | PErr e =>
          if (length (errChan s) <? errChan_cap)%nat
          then Some (emit [EvReport e]
                       (set_errChan (errChan s ++ [e]) (set_loop d PExit s)))
          else None
      | _ => None
      end
  | LMain =>
      match main s with
      | MRecvErr =>
          match errChan s with
          | e :: rest =>
              Some (emit [EvReturn e] (set_main (MReturned e) (set_errChan rest s)))
          | [] => None
          end
      | MReturned _ => None
      end
  end.

Fixpoint run (ls : list label) (s : state) : option state :=
  match ls with
  | [] => Some s
  | l :: rest =>
      match step l s with
      | Some s' => run rest s'
      | None => None
      end
  end.

(** The errors that the direction's own [Recv] and [Send] produced. *)
Definition own_failure_of (d : dir) (ev : event) : option error :=
  match ev with
  | EvRecvErr d' e | EvSend d' _ (Some e) =>
      if same_dir d d' then Some e else None
  | _ => None
  end.

Definition failures (d : dir) (tr : list event) : list error :=
  omap (own_failure_of d) tr.

Arguments failures : simpl never.

Definition taken (p : main_pc) : list error :=
  match p with
  | MRecvErr => []
  | MReturned e => [e]
  end.

(** The invariant: the errors reported are the one the caller took and
    those still in the channel; a loop leaves its [for] only through a
    failure of its own [Recv] or [Send]. *)
Definition loops_inv (s : state) : Prop :=
  reported (trace s) = taken (main s) ++ errChan s /\
  forall d,
    match loop_of d s with
    | PRecv | PSend _ => failures d (trace s) = []
    | PErr e => failures d (trace s) = [e]
    | PExit => exists e, failures d (trace s) = [e]
    end.

(** The claim as the specification states it: by the time [Proxy]
    returns, the error it returns is the first one a direction produced,
    and both forwarding loops have ended. *)
Definition first_error_ends_both_loops : Prop :=
  forall ls s e,
    run ls init = Some s -> main s = MReturned e ->
    head (produced (trace s)) = Some e /\
    loopF s = PExit /\ loopB s = PExit.

End Proxy2.

(** ** The wire codec *)

Module WireCodec.

Local Open Scope N_scope.

(** Modelled from the spec: the Wire Codec, whose source file is not among
    the sources.  A frame is one flags byte (bit 0: more frames follow,
    bit 1: the length field is 8 bytes, else 1 byte), the length field and
    the payload.  A message of N frames sets "more" on frames 1..N-1 and
    clears it on frame N.  The 8-byte length is written in network byte
    order.  [decode] yields a message only when a frame with "more"
    cleared is seen, asks for more bytes on a partial frame, and fails
    with a protocol violation when a length field exceeds the configured
    maximum. *)
Definition Message : Type := list (list byte).

Definition flag_more : N := 1.
Definition flag_long : N := 2.

(** [k] bytes of [n], most significant first. *)
Fixpoint be_bytes (k : nat) (n : N) : list byte :=
  match k with
  | O => []
  | S k' => be_bytes k' (n / 256) ++ [byte_of_N n]
  end.

Definition be_value (l : list byte) : N :=
  fold_left (fun acc b => acc * 256 + Byte.to_N b) l 0.

Definition encode_frame (more : bool) (payload : list byte) : list byte :=
  let n := N.of_nat (length payload) in
  let long := 255 <? n in
  byte_of_N (N.lor (if more then flag_more else 0)
                   (if long then flag_long else 0))
  :: (if long then be_bytes 8 n else [byte_of_N n]) ++ payload.

Fixpoint encode (M : Message) : list byte :=
  match M with
  | [] => []
  | [f] => encode_frame false f
  | f :: rest => encode_frame true f ++ encode rest
  end.

(** The result of reading one frame from the head of a buffer. *)
Inductive frame_result : Type :=
  | Frame (more : bool) (payload : list byte) (rest : list byte) (used : nat)
  | NeedMore
  | TooLong.

Definition take_payload (max : N) (more : bool) (n : N) (hdr : nat)
    (body : list byte) : frame_result :=
  if max <? n then TooLong
  else if (length body <? N.to_nat n)%nat then NeedMore
  else Frame more (firstn (N.to_nat n) body) (skipn (N.to_nat n) body)
             (hdr + N.to_nat n).

Definition decode_frame (max : N) (input : list byte) : frame_result :=
  match input with
  | [] => NeedMore
  | flags :: r =>
      let more := N.testbit (Byte.to_N flags) 0 in
      if N.testbit (Byte.to_N flags) 1 then
        if (length r <? 8)%nat then NeedMore
        else take_payload max more (be_value (firstn 8 r)) 9 (skipn 8 r)
      else
        match r with
        | [] => NeedMore
        | l :: body => take_payload max more (Byte.to_N l) 2 body
        end
  end.

Inductive decode_result : Type :=
  | Decoded (M : Message) (bytesConsumed : nat)
  | Incomplete
  | ProtocolViolation.

(** Frames accumulate in [partial] until one with "more" cleared is read.
    Every frame takes at least two bytes, so the length of the buffer
    bounds the number of rounds. *)
Fixpoint decode_loop (rounds : nat) (max : N) (partial : Message)
    (consumed : nat) (input : list byte) : decode_result :=
  match rounds with
  | O => Incomplete
  | S rounds' =>
      match decode_frame max input with
      | NeedMore => Incomplete
      | TooLong => ProtocolViolation
      | Frame more payload rest used =>
          if more
          then decode_loop rounds' max (partial ++ [payload])
                 (consumed + used) rest
          else Decoded (partial ++ [payload]) (consumed + used)
      end
  end.

Definition decode (max : N) (input : list byte) : decode_result :=
  decode_loop (length input) max [] 0 input.

End WireCodec.

(** ** Concrete inputs *)

(** A message of two frames, a socket error, and a second one. *)
Definition hello : Msg := {| Frames := [[x68; x69]; []] |}.
Definition peer_closed : error := EnvError 1.
Definition send_failed : error := EnvError 2.

(** A run of the three-socket proxy that receives [hello] on the frontend,
    captures it, queues it and sends it on the backend. *)
Definition forward_once : list Proxy3.label :=
  [Proxy3.LPoll F2B; Proxy3.LRecvMsg F2B hello; Proxy3.LCapture F2B;
   Proxy3.LPut F2B; Proxy3.LRange F2B; Proxy3.LSendOk F2B].

(** A run of the three-socket proxy to its return: the frontend fails, the
    backend's receiver sees [done], the caller closes the channels. *)
Definition shutdown_run : list Proxy3.label :=
  [Proxy3.LPoll F2B; Proxy3.LRecvFail F2B peer_closed; Proxy3.LReportR F2B;
   Proxy3.LMain; Proxy3.LMain; Proxy3.LPoll B2F; Proxy3.LMain;
   Proxy3.LMain; Proxy3.LMain].

(** A run of the three-socket proxy in which the backend's error is
    produced second and reported first. *)
Definition overtaking_run : list Proxy3.label :=
  [Proxy3.LPoll F2B; Proxy3.LPoll B2F;
   Proxy3.LRecvFail F2B peer_closed; Proxy3.LRecvFail B2F send_failed;
   Proxy3.LReportR B2F; Proxy3.LMain; Proxy3.LMain; Proxy3.LQuitR F2B;
   Proxy3.LMain; Proxy3.LMain; Proxy3.LMain].

(** A run of the two-socket proxy to its return, the frontend failing. *)
Definition return_run : list Proxy2.label :=
  [Proxy2.LRecvFail F2B peer_closed; Proxy2.LReport F2B; Proxy2.LMain].

(** The same run, after which the other direction goes on forwarding, and
    then fails itself. *)
Definition return_then_forward : list Proxy2.label :=
  return_run ++ [Proxy2.LRecvMsg B2F hello; Proxy2.LSendOk B2F].

Definition return_then_fail : list Proxy2.label :=
  return_then_forward
  ++ [Proxy2.LRecvFail B2F send_failed; Proxy2.LReport B2F].

(** The state a run of labels reaches, or the initial one. *)
Definition reached3 (capture : bool) (ls : list Proxy3.label) : Proxy3.state :=
  match Proxy3.run capture ls Proxy3.init with
  | Some s => s
  | None => Proxy3.init
  end.

Definition reached2 (ls : list Proxy2.label) : Proxy2.state :=
  match Proxy2.run ls Proxy2.init with
  | Some s => s
  | None => Proxy2.init
  end.

(** A random source that yields the byte [0x2a] for ever. *)
Definition constant_source : rand_source :=
  {| entropy := fun _ => x2a; rand_failure := None |}.

(** ** Observations of the registry *)

(** The [Auth] object that [getAuth] gives after a sequence of registry
    calls, and what an [AuthStart] returns then. *)
Definition instance_after (os : list AuthRegistry.op) : option AuthRegistry.Auth :=
  match AuthRegistry.bind (AuthRegistry.exec_all os)
          (fun _ => AuthRegistry.bind AuthRegistry.getAuth AuthRegistry.load)
          AuthRegistry.pkg_init with
  | Some (a, _) => Some a
  | None => None
  end.

Definition start_result_after (os : list AuthRegistry.op) : option (option error) :=
  match AuthRegistry.bind (AuthRegistry.exec_all os)
          (fun _ => AuthRegistry.AuthStart) AuthRegistry.pkg_init with
  | Some (r, _) => Some r
  | None => None
  end.

(** Whether the last [AuthStart] or [AuthStop] of a sequence of calls was an
    [AuthStart]. *)
Definition started (os : list AuthRegistry.op) : bool :=
  fold_left (fun b o => match o with
                        | AuthRegistry.OpStart => true
                        | AuthRegistry.OpStop => false
                        | _ => b
                        end) os false.

(** The same calls on the variant without a registry: [AuthStart] and
    [AuthStop] act on [authStarted], the other functions have empty
    bodies. *)
Definition simple_exec (authStarted : bool) (o : AuthRegistry.op) : bool :=
  match o with
  | AuthRegistry.OpStart => snd (AuthSimple.AuthStart authStarted)
  | AuthRegistry.OpStop => AuthSimple.AuthStop authStarted
  | _ => authStarted
  end.

(** A hexadecimal text with its upper-case digits in lower case. *)
Definition lower_hex_char (c : ascii) : ascii :=
  let n := N_of_ascii c in
  if (65 <=? n)%N && (n <=? 70)%N then ascii_of_N (n + 32) else c.

Fixpoint lower_hex (s : string) : string :=
  match s with
  | "" => ""
  | String c rest => String (lower_hex_char c) (lower_hex rest)
  end.

(** ** Sequences of monitor events *)

(** [emitEvent] called for each event of a list, in order. *)
Fixpoint emit_all (evs : list Monitor.SocketEvent) : Monitor.M unit :=
  match evs with
  | [] => Monitor.ret tt
  | ev :: rest =>
      Monitor.bind
        (Monitor.emitEvent (Monitor.Event ev) (Monitor.Address ev)
           (Monitor.Value ev))
        (fun _ => emit_all rest)
  end.

(** The events that share a bit with a mask. *)
Definition passes (mask : Z) (ev : Monitor.SocketEvent) : bool :=
  negb (Z.land mask (Monitor.Event ev) =? 0)%Z.

(** ** options.go: the functional options *)

Module Options.

(** A value of the interface [Security], whose declaration is not among the
    sources: [nullSecurity{}] or another mechanism; [None] is nil. *)
Inductive Security : Type :=
  | nullSecurity
  | otherSecurity (name : string).

(** The fields of [socket] that the options write. *)
Record socket : Type := {
  id : string;
  sec : option Security;
  timeout : Z;
  retry : Z;
  maxRetries : Z;
  autoReconnect : bool
}.

(** [type Option func(s *socket)] *)
Definition Option : Type := socket -> socket.

(** [WithID] *)
Definition WithID (i : string) : Option :=
  fun s => {| id := i; sec := sec s; timeout := timeout s; retry := retry s;
              maxRetries := maxRetries s; autoReconnect := autoReconnect s |}.

(** [WithSecurity] *)
Definition WithSecurity (sc : option Security) : Option :=
  fun s =>
    let sc := match sc with
              | None => Some nullSecurity
              | Some _ => sc
              end in
    {| id := id s; sec := sc; timeout := timeout s; retry := retry s;
       maxRetries := maxRetries s; autoReconnect := autoReconnect s |}.

(** [WithTimeout] *)
Definition WithTimeout (t : Z) : Option :=
  fun s => {| id := id s; sec := sec s; timeout := t; retry := retry s;
              maxRetries := maxRetries s; autoReconnect := autoReconnect s |}.

(** [WithLogger], for a logger of any type *)
Definition WithLogger {A : Type} (logger : A) : Option := fun s => s.

(** [WithDialerRetry] *)
Definition WithDialerRetry (r : Z) : Option :=
  fun s => {| id := id s; sec := sec s; timeout := timeout s; retry := r;
              maxRetries := maxRetries s; autoReconnect := autoReconnect s |}.

(** [WithDialerMaxRetries] *)
Definition WithDialerMaxRetries (n : Z) : Option :=
  fun s => {| id := id s; sec := sec s; timeout := timeout s;
              retry := retry s; maxRetries := n;
              autoReconnect := autoReconnect s |}.

(** [WithAutomaticReconnect] *)
Definition WithAutomaticReconnect (auto : bool) : Option :=
  fun s => {| id := id s; sec := sec s; timeout := timeout s;
              retry := retry s; maxRetries := maxRetries s;
              autoReconnect := auto |}.

(** A call of one of the options, and the field it is about. *)
Inductive call : Type :=
  | CallWithID (i : string)
  | CallWithSecurity (sc : option Security)
  | CallWithTimeout (t : Z)
  | CallWithLogger (logger : string)
  | CallWithDialerRetry (r : Z)
  | CallWithDialerMaxRetries (n : Z)
  | CallWithAutomaticReconnect (auto : bool).

Definition option_of (c : call) : Option :=
  match c with
  | CallWithID i => WithID i
  | CallWithSecurity sc => WithSecurity sc
  | CallWithTimeout t => WithTimeout t
  | CallWithLogger l => WithLogger l
  | CallWithDialerRetry r => WithDialerRetry r
  | CallWithDialerMaxRetries n => WithDialerMaxRetries n
  | CallWithAutomaticReconnect a => WithAutomaticReconnect a
  end.

Definition field_of (c : call) : nat :=
  match c with
  | CallWithID _ => 1
  | CallWithSecurity _ => 2
  | CallWithTimeout _ => 3
  | CallWithLogger _ => 0
  | CallWithDialerRetry _ => 4
  | CallWithDialerMaxRetries _ => 5
  | CallWithAutomaticReconnect _ => 6
  end.

End Options.

(** ** Invariants of the flow of messages through the proxies *)

(** The messages a direction of the three-socket proxy has received are, in
    order, those it has forwarded, the one being sent, those queued, the
    one being queued or captured, and the one given up for [done]; the
    queue holds at most its capacity. *)
Definition flow_inv (l : Proxy3.lane) (rc fw : list Msg) : Prop :=
  exists dropped,
    rc = fw ++ Proxy3.at_send l ++ Proxy3.queue l ++ Proxy3.at_put l
         ++ Proxy3.at_capture l ++ dropped /\
    (dropped <> [] -> Proxy3.rpc l = Proxy3.RExit) /\
    (length dropped <= 1)%nat /\
    (length (Proxy3.queue l) <= Proxy3.queue_cap)%nat.

Definition flows (s : Proxy3.state) : Prop :=
  forall d,
    flow_inv (Proxy3.lane_of d s) (received d (Proxy3.trace s))
      (forwarded d (Proxy3.trace s)).

(** The message a loop of the two-socket proxy has received and not sent. *)
Definition pending (p : Proxy2.loop_pc) : list Msg :=
  match p with
  | Proxy2.PSend m => [m]
  | _ => []
  end.

Definition flows2 (s : Proxy2.state) : Prop :=
  forall d,
    received d (Proxy2.trace s)
    = forwarded d (Proxy2.trace s) ++ pending (Proxy2.loop_of d s).

(** A trace without its capture events. *)
Definition is_capture (ev : event) : bool :=
  match ev with
  | EvCapture _ _ => true
  | _ => false
  end.

Definition without_capture (tr : list event) : list event :=
  List.filter (fun ev => negb (is_capture ev)) tr.

(** Two states of the three-socket proxy that differ by the capture events
    of the trace only. *)
Definition same_but_capture (s s' : Proxy3.state) : Prop :=
  Proxy3.laneF s' = Proxy3.laneF s /\ Proxy3.laneB s' = Proxy3.laneB s /\
  Proxy3.errChan s' = Proxy3.errChan s /\ Proxy3.done s' = Proxy3.done s /\
  Proxy3.main s' = Proxy3.main s /\
  Proxy3.trace s' = without_capture (Proxy3.trace s).

(** Every error that is reported, or held by a goroutine that is about to
    report it, was produced by a [Recv] or a [Send]. *)
Definition errors_produced (s : Proxy3.state) : Prop :=
  (forall e, In e (reported (Proxy3.trace s)) ->
             In e (produced (Proxy3.trace s))) /\
  forall d e,
    (Proxy3.rpc (Proxy3.lane_of d s) = Proxy3.RErr e ->
     In e (produced (Proxy3.trace s))) /\
    (Proxy3.wpc (Proxy3.lane_of d s) = Proxy3.WErr e ->
     In e (produced (Proxy3.trace s))).

Definition errors_produced2 (s : Proxy2.state) : Prop :=
  (forall e, In e (reported (Proxy2.trace s)) ->
             In e (produced (Proxy2.trace s))) /\
  forall d e,
    Proxy2.loop_of d s = Proxy2.PErr e -> In e (produced (Proxy2.trace s)).

(** The loops of the two-socket proxy that have returned; each has reported
    one error. *)
Definition exited (p : Proxy2.loop_pc) : nat :=
  match p with
  | Proxy2.PExit => 1
  | _ => 0
  end.

Definition reports_inv (s : Proxy2.state) : Prop :=
  length (reported (Proxy2.trace s))
  = (exited (Proxy2.loopF s) + exited (Proxy2.loopB s))%nat /\
  (length (Proxy2.errChan s) <= length (reported (Proxy2.trace s)))%nat.

(** ** networking/transport.go *)

Module Transport.

Local Open Scope Z_scope.

(** Go's [int], [int64] and [time.Duration]: 64 bits, two's complement. *)
Definition wrap64 (z : Z) : Z := (z + 2 ^ 63) mod 2 ^ 64 - 2 ^ 63.

(** [atomic.Uint64.Add(1)] *)
Definition incr_uint64 (z : Z) : Z := (z + 1) mod 2 ^ 64.

Arguments wrap64 : simpl never.
Arguments incr_uint64 : simpl never.

(** [type Config struct] *)
Record Config : Type := {
  NodeID : string;
  BasePort : Z;
  BindAddress : string;
  MaxRetries : Z;
  RetryDelay : Z;
  BufferSize : Z
}.

(** [time.Millisecond], in nanoseconds *)
Definition Millisecond : Z := 1000000.

(** [DefaultConfig] *)
Definition DefaultConfig (nodeID : string) (basePort : Z) : Config :=
  {| NodeID := nodeID; BasePort := basePort; BindAddress := "127.0.0.1";
     MaxRetries := 3; RetryDelay := wrap64 (100 * Millisecond);
     BufferSize := 1000 |}.

(** The defaults that [New] applies to its configuration. *)
Definition with_defaults (config : Config) : Config :=
  let config :=
    if String.eqb (BindAddress config) ""
    then {| NodeID := NodeID config; BasePort := BasePort config;
            BindAddress := "127.0.0.1"; MaxRetries := MaxRetries config;
            RetryDelay := RetryDelay config;
            BufferSize := BufferSize config |}
    else config in
  let config :=
    if MaxRetries config =? 0
    then {| NodeID := NodeID config; BasePort := BasePort config;
            BindAddress := BindAddress config; MaxRetries := 3;
            RetryDelay := RetryDelay config;
            BufferSize := BufferSize config |}
    else config in
  let config :=
    if RetryDelay config =? 0
    then {| NodeID := NodeID config; BasePort := BasePort config;
            BindAddress := BindAddress config;
            MaxRetries := MaxRetries config;
            RetryDelay := wrap64 (100 * Millisecond);
            BufferSize := BufferSize config |}
    else config in
  if BufferSize config =? 0
  then {| NodeID := NodeID config; BasePort := BasePort config;
          BindAddress := BindAddress config;
          MaxRetries := MaxRetries config;
          RetryDelay := RetryDelay config; BufferSize := 1000 |}
  else config.

(** [type Message struct]; [Data] is kept as the raw bytes. *)
Record Message : Type := {
  Type_ : string;
  From : string;
  To : string;
  SessionID : list byte;
  Height : Z;
  Round : Z;
  Data : list byte;
  Timestamp : Z
}.

(** Sockets and handlers are references; a nil handler is [None]. *)
Definition ref : Type := nat.

(** What the transport does to its sockets and handlers, in order. *)
Inductive call : Type :=
  | PubListen (addr : string)
  | SubSetOption (name value : string)
  | RouterListen (addr : string)
  | SubDial (addr : string)
  | NewDealer (d : ref) (identity : string)
  | DealerDial (d : ref) (addr : string)
  | DealerClose (d : ref)
  | DealerSend (d : ref) (msg : Message)
  | PubSend (msg : Message)
  | Sleep (duration : Z)
  | GoHandler (h : ref) (msg : Message).

(** The errors the transport returns: [fmt.Errorf] with a text, and with
    [%w] a wrapped error, which at the end of a retry loop may be nil. *)
Inductive terror : Type :=
  | Plain (text : string)
  | Wrapped (text : string) (cause : option error)
  | OfSocket (e : error).

(** The error of a retry loop: the last error of an attempt, or the
    [fmt.Errorf] that wraps it. *)
Inductive retry_error : Type :=
  | Last (e : terror)
  | Rewrapped (text : string) (cause : option terror).

(** The fields of [Transport] that the modelled methods use, with the
    number of dealers created and the calls made so far.  The mutex [mu] is
    held for the whole of each method that takes it. *)
Record T : Type := {
  nodeID : string;
  config : Config;
  dealers : gmap string ref;
  handlers : gmap string (option ref);
  peers : list string;
  msgSent : Z;
  msgReceived : Z;
  msgDropped : Z;
  created : nat;
  calls : list call
}.

(** [New], without the context and the channel *)
Definition New (cfg : Config) : T :=
  let cfg := with_defaults cfg in
  {| nodeID := NodeID cfg; config := cfg; dealers := ∅; handlers := ∅;
     peers := []; msgSent := 0; msgReceived := 0; msgDropped := 0;
     created := 0; calls := [] |}.

Definition do_call (c : call) (t : T) : T :=
  {| nodeID := nodeID t; config := config t; dealers := dealers t;
     handlers := handlers t; peers := peers t; msgSent := msgSent t;
     msgReceived := msgReceived t; msgDropped := msgDropped t;
     created := created t; calls := calls t ++ [c] |}.

Definition set_peers (ds : gmap string ref) (ps : list string) (t : T) : T :=
  {| nodeID := nodeID t; config := config t; dealers := ds;
     handlers := handlers t; peers := ps; msgSent := msgSent t;
     msgReceived := msgReceived t; msgDropped := msgDropped t;
     created := created t; calls := calls t |}.

Definition set_handlers (hs : gmap string (option ref)) (t : T) : T :=
  {| nodeID := nodeID t; config := config t; dealers := dealers t;
     handlers := hs; peers := peers t; msgSent := msgSent t;
     msgReceived := msgReceived t; msgDropped := msgDropped t;
     created := created t; calls := calls t |}.

Definition set_counters (sent received dropped : Z) (t : T) : T :=
  {| nodeID := nodeID t; config := config t; dealers := dealers t;
     handlers := handlers t; peers := peers t; msgSent := sent;
     msgReceived := received; msgDropped := dropped;
     created := created t; calls := calls t |}.

Definition new_dealer (t : T) : ref * T :=
  (created t,
   do_call (NewDealer (created t) (nodeID t))
     {| nodeID := nodeID t; config := config t; dealers := dealers t;
        handlers := handlers t; peers := peers t; msgSent := msgSent t;
        msgReceived := msgReceived t; msgDropped := msgDropped t;
        created := S (created t); calls := calls t |}).

(** [fmt.Sprintf("tcp://%s:%d", address, port)] *)
Definition endpoint (address : string) (port : Z) : string :=
  "tcp://" +:+ address +:+ ":" +:+ pretty port.

Arguments endpoint : simpl never.

(** [Start]; the two arguments are the results of the two [Listen]. *)
Definition Start (pub_listen router_listen : option error) (t : T)
    : option terror * T :=
  let pubAddr := endpoint (BindAddress (config t)) (BasePort (config t)) in
  let t := do_call (PubListen pubAddr) t in
  match pub_listen with
  | Some err =>
      (Some (Wrapped ("failed to bind pub socket on " +:+ pubAddr) (Some err)), t)
  | None =>
      let t := do_call (SubSetOption OptionSubscribe "") t in
      let routerAddr :=
        endpoint (BindAddress (config t))
          (wrap64 (BasePort (config t) + 1000)) in
      let t := do_call (RouterListen routerAddr) t in
      match router_listen with
      | Some err =>
          (Some (Wrapped ("failed to bind router socket on " +:+ routerAddr)
                   (Some err)), t)
      | None => (None, t)
      end
  end.

(** [ConnectPeerWithAddress]; the two last arguments before the transport
    are the results of [sub.Dial] and of [dealer.Dial]. *)
Definition ConnectPeerWithAddress (peerID address : string) (port : Z)
    (sub_dial dealer_dial : option error) (t : T) : option terror * T :=
  if existsb (String.eqb peerID) (peers t) then (None, t)
  else
    let subAddr := endpoint address port in
    let t := do_call (SubDial subAddr) t in
    match sub_dial with
    | Some err =>
        (Some (Wrapped ("failed to connect sub to " +:+ peerID +:+ " at "
                        +:+ subAddr) (Some err)), t)
    | None =>
        let '(dealer, t) := new_dealer t in
        let routerAddr := endpoint address (wrap64 (port + 1000)) in
        let t := do_call (DealerDial dealer routerAddr) t in
        match dealer_dial with
        | Some err =>
            (Some (Wrapped ("failed to connect dealer to " +:+ peerID
                            +:+ " at " +:+ routerAddr) (Some err)), t)
        | None =>
            (None, set_peers (<[peerID := dealer]> (dealers t))
                     (peers t ++ [peerID]) t)
        end
    end.

(** [ConnectPeer] *)
Definition ConnectPeer (peerID : string) (port : Z)
    (sub_dial dealer_dial : option error) (t : T) : option terror * T :=
  ConnectPeerWithAddress peerID (BindAddress (config t)) port
    sub_dial dealer_dial t.

(** A method returns or panics, with the state it leaves. *)
Inductive result : Type :=
  | Returned (t : T)
  | Panicked (t : T).

(** [DisconnectPeer]; [make([]string, 0, len(t.peers)-1)] panics for a
    negative capacity. *)
Definition DisconnectPeer (peerID : string) (t : T) : result :=
  let t :=
    match dealers t !! peerID with
    | Some dealer =>
        set_peers (delete peerID (dealers t)) (peers t)
          (do_call (DealerClose dealer) t)
    | None => t
    end in
  if Z.of_nat (length (peers t)) - 1 <? 0 then Panicked t
  else
    Returned (set_peers (dealers t)
                (List.filter (fun p => negb (String.eqb p peerID)) (peers t)) t).

(** [GetPeers]: a copy of the list *)
Definition GetPeers (t : T) : list string :=
  firstn (length (peers t)) (peers t).

(** [RegisterHandler] and [UnregisterHandler] *)
Definition RegisterHandler (msgType : string) (handler : option ref) (t : T) : T :=
  set_handlers (<[msgType := handler]> (handlers t)) t.

Definition UnregisterHandler (msgType : string) (t : T) : T :=
  set_handlers (delete msgType (handlers t)) t.

(** [GetMetrics] *)
Definition GetMetrics (t : T) : Z * Z * Z :=
  (msgSent t, msgReceived t, msgDropped t).

Definition stamp (from to : string) (now : Z) (msg : Message) : Message :=
  {| Type_ := Type_ msg; From := from; To := to; SessionID := SessionID msg;
     Height := Height msg; Round := Round msg; Data := Data msg;
     Timestamp := now |}.

(** What the environment decides in one [Send] or [Broadcast]: the clock,
    the result of [json.Marshal] and the result of the socket's [Send]. *)
Record attempt : Type := {
  now : Z;
  marshal : option error;
  socket_send : option error
}.

(** [Send]; the message is passed by pointer, so the stamped message is
    returned as well. *)
Definition Send (peerID : string) (msg : Message) (a : attempt) (t : T)
    : option terror * Message * T :=
  match dealers t !! peerID with
  | None => (Some (Plain ("no connection to peer " +:+ peerID)), msg, t)
  | Some dealer =>
      let msg := stamp (nodeID t) peerID (now a) msg in
      match marshal a with
      | Some err => (Some (Wrapped "failed to marshal message" (Some err)), msg, t)
      | None =>
          let t := set_counters (incr_uint64 (msgSent t)) (msgReceived t)
                     (msgDropped t) t in
          let t := do_call (DealerSend dealer msg) t in
          (option_map OfSocket (socket_send a), msg, t)
      end
  end.

(** [Broadcast]; [To] is left as it is. *)
Definition Broadcast (msg : Message) (a : attempt) (t : T)
    : option terror * Message * T :=
  let msg := stamp (nodeID t) (To msg) (now a) msg in
  match marshal a with
  | Some err => (Some (Wrapped "failed to marshal message" (Some err)), msg, t)
  | None =>
      let t := set_counters (incr_uint64 (msgSent t)) (msgReceived t)
                 (msgDropped t) t in
      let t := do_call (PubSend msg) t in
      (option_map OfSocket (socket_send a), msg, t)
  end.

(** The loop of [SendWithRetry] and [BroadcastWithRetry] from the index
    [i], with [rounds] iterations left to try; [env] gives the environment
    of the attempt of each index. *)
Fixpoint retry_loop
    (once : Message -> attempt -> T -> option terror * Message * T)
    (env : Z -> attempt) (rounds : nat) (i : Z) (lastErr : option terror)
    (msg : Message) (t : T) : option retry_error * Message * T :=
  if i <? MaxRetries (config t) then
    match rounds with
    | O => (option_map Last lastErr, msg, t)
    | S rounds' =>
        match once msg (env i) t with
        | (None, msg, t) => (None, msg, t)
        | (Some err, msg, t) =>
            let t :=
              if i <? wrap64 (MaxRetries (config t) - 1)
              then do_call (Sleep (wrap64 (wrap64 (i + 1)
                                           * RetryDelay (config t)))) t
              else t in
            retry_loop once env rounds' (i + 1) (Some err) msg t
        end
    end
  else
    (Some (Rewrapped ("failed after " +:+ pretty (MaxRetries (config t))
                      +:+ " retries") lastErr), msg, t).

(** [SendWithRetry] and [BroadcastWithRetry]; the loop runs at most
    [MaxRetries] times, which bounds the rounds. *)
Definition SendWithRetry (peerID : string) (msg : Message)
    (env : Z -> attempt) (t : T) : option retry_error * Message * T :=
  retry_loop (Send peerID) env (S (Z.to_nat (MaxRetries (config t)))) 0 None
    msg t.

Definition BroadcastWithRetry (msg : Message) (env : Z -> attempt) (t : T)
    : option retry_error * Message * T :=
  retry_loop Broadcast env (S (Z.to_nat (MaxRetries (config t)))) 0 None
    msg t.

(** [processMessage]; the argument is the result of [json.Unmarshal],
    [None] for data that is no message. *)
Definition processMessage (unmarshalled : option Message) (t : T) : T :=
  match unmarshalled with
  | None =>
      set_counters (msgSent t) (msgReceived t) (incr_uint64 (msgDropped t)) t
  | Some message =>
      if String.eqb (From message) (nodeID t) && String.eqb (To message) ""
      then t
      else
        let t := set_counters (msgSent t) (incr_uint64 (msgReceived t))
                   (msgDropped t) t in
        match handlers t !! Type_ message with
        | Some (Some handler) => do_call (GoHandler handler message) t
        | _ => t
        end
  end.

(** The calls to peers, for sequences of them. *)
Inductive peer_op : Type :=
  | Connect (peerID address : string) (port : Z)
      (sub_dial dealer_dial : option error)
  | Disconnect (peerID : string).

Fixpoint peer_ops (os : list peer_op) (t : T) : result :=
  match os with
  | [] => Returned t
  | Connect p a port sd dd :: rest =>
      peer_ops rest (snd (ConnectPeerWithAddress p a port sd dd t))
  | Disconnect p :: rest =>
      match DisconnectPeer p t with
      | Returned t' => peer_ops rest t'
      | Panicked t' => Panicked t'
      end
  end.

(** The peers are listed once each, and they are the peers with a dealer. *)
Definition peers_ok (t : T) : Prop :=
  NoDup (peers t) /\ forall p, In p (peers t) <-> is_Some (dealers t !! p).

End Transport.

(** ** Calls of the retry loops *)

(** Several calls made in order. *)
Definition do_calls (cs : list Transport.call) (t : Transport.T) : Transport.T :=
  fold_left (fun t c => Transport.do_call c t) cs t.

(** The pauses of a retry loop whose attempts all fail: after the attempt
    [j] of [n], but for the last, [j] times the delay. *)
Definition pauses (n delay : Z) : list Transport.call :=
  map (fun j => Transport.Sleep (Transport.wrap64 (j * delay)))
    (seqZ 1 (n - 1)).

(** What [Broadcast] sends at the attempt [j]. *)
Definition broadcast_at (env : Z -> Transport.attempt) (t : Transport.T)
    (msg : Transport.Message) (j : Z) : Transport.Message :=
  Transport.stamp (Transport.nodeID t) (Transport.To msg)
    (Transport.now (env j)) msg.

(** The calls of [BroadcastWithRetry] whose attempts from [i] fail at the
    socket up to the attempt [i + n], which succeeds. *)
Fixpoint broadcast_calls (env : Z -> Transport.attempt) (t : Transport.T)
    (msg : Transport.Message) (i : Z) (n : nat) : list Transport.call :=
  match n with
  | O => [Transport.PubSend (broadcast_at env t msg i)]
  | S n' =>
      Transport.PubSend (broadcast_at env t msg i)
      :: Transport.Sleep
           (Transport.wrap64 ((i + 1) * Transport.RetryDelay (Transport.config t)))
      :: broadcast_calls env t msg (i + 1) n'
  end.

(** ** Concrete inputs for the further properties *)

Definition demo_monitor : Monitor.socketMonitor :=
  {| Monitor.endpoint := "inproc://monitor";
     Monitor.events := Monitor.EventConnected;
     Monitor.ch := 1%positive; Monitor.active := true |}.

Definition demo_chan : Monitor.chan :=
  {| Monitor.buf := []; Monitor.cap := 100; Monitor.closed := false |}.

(** A socket with [demo_monitor], its context live or done. *)
Definition demo_socket (ctx_done : bool) : Monitor.socket :=
  {| Monitor.mu := Monitor.Unlocked; Monitor.monitor := Some demo_monitor;
     Monitor.ctx_done := ctx_done;
     Monitor.chans := {[1%positive := demo_chan]} |}.

Definition demo_events : list Monitor.SocketEvent :=
  [{| Monitor.Event := Monitor.EventConnected; Monitor.Address := "a";
      Monitor.Value := 0 |};
   {| Monitor.Event := Monitor.EventClosed; Monitor.Address := "b";
      Monitor.Value := 1 |};
   {| Monitor.Event := Monitor.EventConnected; Monitor.Address := "c";
      Monitor.Value := 2 |}].

(** A run of the two-socket proxy in which the backend's [Recv] fails. *)
Definition failing_run : list Proxy2.label :=
  [Proxy2.LRecvMsg F2B hello; Proxy2.LRecvFail B2F send_failed].

(** A transport with the default configuration, and calls to its peers. *)
Definition demo_transport : Transport.T :=
  Transport.New (Transport.DefaultConfig "node-1" 5000).

Definition demo_peer_ops : list Transport.peer_op :=
  [Transport.Connect "node-2" "127.0.0.1" 5001 None None;
   Transport.Connect "node-3" "127.0.0.1" 5002 None (Some peer_closed);
   Transport.Connect "node-4" "127.0.0.1" 5003 None None;
   Transport.Connect "node-2" "127.0.0.1" 5001 None None;
   Transport.Disconnect "node-2"].

Definition after_peer_ops (os : list Transport.peer_op) (t : Transport.T)
    : Transport.T :=
  match Transport.peer_ops os t with
  | Transport.Returned t' => t'
  | Transport.Panicked t' => t'
  end.

Definition demo_message : Transport.Message :=
  {| Transport.Type_ := "ping"; Transport.From := ""; Transport.To := "";
     Transport.SessionID := []; Transport.Height := 0; Transport.Round := 0;
     Transport.Data := []; Transport.Timestamp := 0 |}.

(** An environment in which the first [Send] fails and the second
    succeeds. *)
Definition fails_once (j : Z) : Transport.attempt :=
  {| Transport.now := j; Transport.marshal := None;
     Transport.socket_send := if (j <? 1)%Z then Some send_failed else None |}.

(** * Properties *)

(** ** encoding/hex *)

Lemma byte_of_to_N (v : byte) : byte_of_N (Byte.to_N v) = v.
Proof.
  unfold byte_of_N. pose proof (Byte.to_N_bounded v) as Hb.
  rewrite N.mod_small by lia. now rewrite Byte.of_to_N.
Qed.

Lemma to_N_byte_of_N (n : N) : Byte.to_N (byte_of_N n) = (n mod 256)%N.
Proof.
  unfold byte_of_N.
  destruct (Byte.of_N (n mod 256)) as [b|] eqn:E.
  - now apply Byte.to_of_N.
  - apply Byte.of_N_None_iff in E.
    pose proof (N.mod_upper_bound n 256). lia.
Qed.

Lemma hex_digits_of_byte (v : byte) :
  hex.fromHexChar (hex.hexdigit (hex.hi v)) = Some (hex.hi v) /\
  hex.fromHexChar (hex.hexdigit (hex.lo v)) = Some (hex.lo v) /\
  byte_of_N (N.lor (N.shiftl (hex.hi v) 4) (hex.lo v)) = v.
Proof. destruct v; vm_compute; auto. Qed.

Lemma DecodeString_EncodeToString (d : list byte) :
  hex.DecodeString (hex.EncodeToString d) = (d, None).
Proof.
  induction d as [|v d IH]; [reflexivity|].
  destruct (hex_digits_of_byte v) as (Hh & Hl & Hv).
  cbn [hex.EncodeToString hex.DecodeString].
  rewrite Hh, Hl, IH, Hv. reflexivity.
Qed.

Lemma fromHexChar_is_hex_char (c : ascii) :
  hex.fromHexChar c = None <-> is_hex_char c = false.
Proof.
  destruct c as [[] [] [] [] [] [] [] []]; vm_compute; split; congruence.
Qed.

(** Induction on strings two characters at a time, as the loop of [Decode]
    goes. *)
Lemma string_pair_ind (P : string -> Prop) :
  P "" ->
  (forall c, P (String c "")) ->
  (forall p q s, P s -> P (String p (String q s))) ->
  forall s, P s.
Proof.
  intros H0 H1 H2.
  assert (H : forall s, P s /\ forall c, P (String c s)).
  { induction s as [|c s [IHs IHc]]; split; auto. }
  intros s. apply H.
Qed.

Lemma DecodeString_ok_iff (s : string) :
  snd (hex.DecodeString s) = None <-> valid_hex s = true.
Proof.
  unfold valid_hex.
  induction s as [|c|p q s IH] using string_pair_ind.
  - cbn. tauto.
  - cbn [hex.DecodeString]. split.
    + destruct (hex.fromHexChar c); cbn; discriminate.
    + cbn. discriminate.
  - cbn [hex.DecodeString String.length list_ascii_of_string forallb Nat.even].
    destruct (hex.fromHexChar p) as [a|] eqn:Ep.
    + assert (is_hex_char p = true) as ->.
      { destruct (is_hex_char p) eqn:E; [easy|].
        apply fromHexChar_is_hex_char in E. congruence. }
      destruct (hex.fromHexChar q) as [b|] eqn:Eq.
      * assert (is_hex_char q = true) as ->.
        { destruct (is_hex_char q) eqn:E; [easy|].
          apply fromHexChar_is_hex_char in E. congruence. }
        destruct (hex.DecodeString s) as [out err]. cbn in *. exact IH.
      * apply fromHexChar_is_hex_char in Eq. rewrite Eq. cbn.
        rewrite andb_false_r. split; discriminate.
    + apply fromHexChar_is_hex_char in Ep. rewrite Ep. cbn.
      rewrite andb_false_r. split; discriminate.
Qed.

Lemma length_DecodeString (s : string) :
  snd (hex.DecodeString s) = None ->
  String.length s = 2 * length (fst (hex.DecodeString s)).
Proof.
  induction s as [|c|p q s IH] using string_pair_ind.
  - reflexivity.
  - cbn. destruct (hex.fromHexChar c); cbn; discriminate.
  - cbn [hex.DecodeString].
    destruct (hex.fromHexChar p); [|cbn; discriminate].
    destruct (hex.fromHexChar q); [|cbn; discriminate].
    destruct (hex.DecodeString s) as [out err]. cbn in *.
    intros H. rewrite (IH H). lia.
Qed.

Lemma length_EncodeToString (d : list byte) :
  String.length (hex.EncodeToString d) = 2 * length d.
Proof. induction d as [|v d IH]; cbn; [reflexivity|]. rewrite IH. lia. Qed.

(** ** Slices *)

Lemma length_make_bytes (n : nat) : length (make_bytes n) = n.
Proof. apply repeat_length. Qed.

Lemma copy_same_length (dst src : list byte) :
  length dst = length src -> copy dst src = src.
Proof.
  intros H. unfold copy. rewrite H, Nat.min_id.
  rewrite firstn_all. rewrite skipn_all2 by lia. apply app_nil_r.
Qed.

Lemma rand_Read_length (r : rand_source) (b out : list byte) :
  rand_Read r b = (out, None) -> length out = length b.
Proof.
  unfold rand_Read. destruct (rand_failure r); [discriminate|].
  intros [= <-]. now rewrite length_map, length_seq.
Qed.

(** ** auth.go *)

(** C8. A successful [NewCurveKeypair] returns the same string as public and
    as secret key; [AuthCurvePublic] returns a hex-encoded 32-byte key
    unchanged, returns every valid hex string unchanged, and returns an
    error exactly when its argument is not valid hex. *)
Theorem curve_public_is_secret :
  (forall r pk sk,
     AuthSimple.NewCurveKeypair r = (pk, sk, None) -> pk = sk) /\
  (forall k : list byte,
     length k = 32 ->
     AuthSimple.AuthCurvePublic (hex.EncodeToString k)
     = (hex.EncodeToString k, None)) /\
  (forall s,
     valid_hex s = true -> AuthSimple.AuthCurvePublic s = (s, None)) /\
  (forall s,
     snd (AuthSimple.AuthCurvePublic s) <> None <-> valid_hex s = false).
Proof.
  split; [|split; [|split]].
  - intros r pk sk. unfold AuthSimple.NewCurveKeypair.
    destruct (rand_Read r (make_bytes 32)) as [secret [err|]] eqn:E;
      [discriminate|].
    apply rand_Read_length in E. rewrite length_make_bytes in E.
    rewrite copy_same_length by (now rewrite length_make_bytes).
    congruence.
  - intros k _. unfold AuthSimple.AuthCurvePublic.
    now rewrite DecodeString_EncodeToString.
  - intros s H. apply DecodeString_ok_iff in H.
    unfold AuthSimple.AuthCurvePublic.
    destruct (hex.DecodeString s) as [out err]. cbn in H. now subst.
  - intros s. unfold AuthSimple.AuthCurvePublic.
    pose proof (DecodeString_ok_iff s) as H.
    destruct (hex.DecodeString s) as [out [e|]]; cbn in *.
    + split; [|discriminate]. intros _.
      destruct (valid_hex s); [|reflexivity].
      destruct H as [_ H]. now specialize (H eq_refl).
    + split; [congruence|]. destruct H as [H _]. rewrite (H eq_refl).
      discriminate.
Qed.

(** The registry variant of [AuthCurvePublic] agrees on keys of 32 bytes,
    and only there: valid hex of another length is refused. *)
Lemma registry_curve_public (s : string) :
  AuthRegistry.AuthCurvePublic s = (s, None) <->
  valid_hex s = true /\ String.length s = 64.
Proof.
  unfold AuthRegistry.AuthCurvePublic.
  pose proof (DecodeString_ok_iff s) as H.
  pose proof (length_DecodeString s) as L.
  destruct (hex.DecodeString s) as [out [e|]]; cbn in *.
  - split; [discriminate|]. intros [V _]. apply H in V. discriminate.
  - specialize (L eq_refl). destruct H as [H _]. specialize (H eq_refl).
    destruct (Nat.eqb_spec (length out) 32) as [E|E]; cbn.
    + split; [intros _; split; [exact H|lia]|reflexivity].
    + split; [discriminate|]. intros [_ E']. lia.
Qed.

(** C9. Decoding what [Z85encode] produced succeeds and gives the bytes
    back, in both variants of the file. *)
Theorem Z85_round_trip (d : list byte) :
  AuthSimple.Z85decode (AuthSimple.Z85encode d) = (d, None) /\
  AuthRegistry.Z85decode (AuthRegistry.Z85encode d) = (d, None).
Proof.
  split; apply DecodeString_EncodeToString.
Qed.

(** *** The registry is one instance *)

Section Registry.

Import AuthRegistry.

Lemma getAuth_first :
  getAuth pkg_init = Some (Some first_loc, singleton_pkg first_loc empty_Auth).
Proof. reflexivity. Qed.

Lemma getAuth_again (l : loc) (a : Auth) :
  getAuth (singleton_pkg l a) = Some (Some l, singleton_pkg l a).
Proof. reflexivity. Qed.

Lemma load_singleton (l : loc) (a : Auth) :
  load (Some l) (singleton_pkg l a) = Some (a, singleton_pkg l a).
Proof. unfold load, singleton_pkg. cbn. now rewrite lookup_singleton_eq. Qed.

Lemma store_singleton (l : loc) (a a' : Auth) :
  store (Some l) a' (singleton_pkg l a) = Some (tt, singleton_pkg l a').
Proof.
  unfold store, singleton_pkg. cbn. rewrite lookup_singleton_eq.
  now rewrite insert_singleton_eq.
Qed.

Lemma exec_singleton (o : op) (l : loc) (a : Auth) :
  exec o (singleton_pkg l a) = Some (tt, singleton_pkg l (on_instance o a)).
Proof.
  destruct o; unfold exec, AuthStart, AuthStop, AuthSetVerbose, AuthAllow,
    AuthDeny, AuthCurveAdd, AuthCurveRemove, bind;
    rewrite getAuth_again, load_singleton; cbn [on_instance].
  - destruct a as [v [] c al de];
      cbn [running verbose curveKeys allow deny]; [reflexivity|].
    unfold bind. now rewrite store_singleton.
  - now rewrite store_singleton.
  - now rewrite store_singleton.
  - now rewrite store_singleton.
  - now rewrite store_singleton.
  - now rewrite store_singleton.
  - destruct (decide _).
    + now rewrite store_singleton.
    + destruct a; reflexivity.
Qed.

Lemma exec_first (o : op) :
  exec o pkg_init = exec o (singleton_pkg first_loc empty_Auth).
Proof. destruct o; reflexivity. Qed.

Lemma exec_all_singleton (os : list op) (l : loc) (a : Auth) :
  exec_all os (singleton_pkg l a)
  = Some (tt, singleton_pkg l (after_ops os a)).
Proof.
  revert a. induction os as [|o os IH]; intros a; [reflexivity|].
  cbn [exec_all]. unfold bind at 1. rewrite exec_singleton. apply IH.
Qed.

(** C7. There is one [Auth] object: after any sequence of registry
    operations [getAuth] returns the same pointer, the store holds that
    object and no other, and each of the operations is the update of that
    object, leaving the pointer as it was. *)
Theorem registry_is_one_instance :
  exists l : loc, forall os : list op,
    exists (a : Auth) (p : pkg),
      (run! exec_all os in getAuth) pkg_init = Some (Some l, p) /\
      authInstance p = Some l /\
      heap p = {[l := a]} /\
      getAuth p = Some (Some l, p) /\
      forall o : op,
        exec o p
        = Some (tt, {| authInstance := Some l; authOnce := true;
                       heap := {[l := on_instance o a]} |}).
Proof.
  exists first_loc. intros os.
  assert (H : exists a,
    (run! exec_all os in getAuth) pkg_init
    = Some (Some first_loc, singleton_pkg first_loc a)).
  { destruct os as [|o os].
    - exists empty_Auth. reflexivity.
    - exists (after_ops os (on_instance o empty_Auth)).
      unfold bind at 1. cbn [exec_all]. unfold bind at 1.
      rewrite exec_first, exec_singleton, exec_all_singleton.
      reflexivity. }
  destruct H as [a H]. exists a, (singleton_pkg first_loc a).
  split; [exact H|]. split; [reflexivity|]. split; [reflexivity|].
  split; [reflexivity|]. intros o. apply exec_singleton.
Qed.

End Registry.

(** ** The socket monitor *)

Section MonitorFacts.

Import Monitor.
Local Open Scope Z_scope.

(** A read lock taken and released leaves the socket as it was, whenever
    no writer holds the mutex. *)
Lemma RLock_RUnlock (s : socket) :
  mu s <> WriteLocked ->
  (run! RLock in let! m := get_monitor in run! RUnlock in ret m) s
  = Done (monitor s) s.
Proof.
  intros H. destruct s as [[| |n] m d c]; cbn in H; [|congruence|];
  reflexivity.
Qed.

Lemma emitEvent_unfold (s : socket) event address value :
  mu s <> WriteLocked ->
  emitEvent event address value s
  = emitEvent_send (monitor s) event address value s.
Proof.
  intros H. destruct s as [[| |n] m d c]; cbn in H; [|congruence|];
  reflexivity.
Qed.

Lemma emitEvent_write_locked (s : socket) event address value :
  mu s = WriteLocked -> emitEvent event address value s = Blocked.
Proof. intros H. unfold emitEvent, bind, RLock. now rewrite H. Qed.

(** The three outcomes of the guarded, non-blocking send. *)
Lemma emitEvent_send_cases (s : socket) (mon : socketMonitor) (q : chan)
    event address value :
  chans s !! ch mon = Some q ->
  (closed q = true -> active mon = false) ->
  emitEvent_send (Some mon) event address value s
  = Done tt
      (if active mon && negb (Z.land (events mon) event =? 0)
          && (length (buf q) <? cap q)%nat
       then {| mu := mu s; monitor := monitor s; ctx_done := ctx_done s;
               chans := <[ch mon :=
                            {| buf := buf q ++ [{| Event := event;
                                                   Address := address;
                                                   Value := value |}];
                               cap := cap q; closed := false |}]> (chans s) |}
       else s).
Proof.
  intros Hq Hc. unfold emitEvent_send, try_send, ret.
  destruct (active mon) eqn:Ea; cbn [andb]; [|reflexivity].
  destruct (negb (Z.land (events mon) event =? 0)); cbn [andb]; [|reflexivity].
  rewrite Hq. destruct (closed q); [now specialize (Hc eq_refl)|].
  now destruct (length (buf q) <? cap q)%nat.
Qed.

Lemma queue_of_insert (s : socket) (c c' : chan_ref) (q : chan) m mo d :
  queue_of c {| mu := m; monitor := mo; ctx_done := d;
                chans := <[c' := q]> (chans s) |}
  = if decide (c' = c) then buf q else queue_of c s.
Proof.
  unfold queue_of. cbn. rewrite lookup_insert.
  now destruct (decide (c' = c)).
Qed.

(** A single-bit mask test reads one bit of the registered mask. *)
Lemma land_pow2 (a k : Z) :
  0 <= k -> Z.land a (2 ^ k) = if Z.testbit a k then 2 ^ k else 0.
Proof.
  intros Hk. apply Z.bits_inj'. intros n Hn.
  rewrite Z.land_spec, Z.pow2_bits_eqb by assumption.
  destruct (Z.eqb_spec k n) as [->|Hne].
  - destruct (Z.testbit a n); cbn.
    + now rewrite Z.pow2_bits_eqb, Z.eqb_refl.
    + now rewrite Z.bits_0.
  - rewrite andb_false_r. destruct (Z.testbit a k).
    + rewrite Z.pow2_bits_eqb by assumption.
      symmetry. now apply Z.eqb_neq.
    + now rewrite Z.bits_0.
Qed.

Lemma taxonomy_single_bit (e : Z) :
  In e taxonomy -> 0 <= Z.log2 e /\ e = 2 ^ Z.log2 e.
Proof.
  cbn. intros H.
  repeat (destruct H as [<-|H]; [vm_compute; split; congruence|]).
  destruct H.
Qed.

Lemma taxonomy_mask_bit (mask e : Z) :
  In e taxonomy ->
  (Z.land mask e =? 0) = negb (Z.testbit mask (Z.log2 e)).
Proof.
  intros H. destruct (taxonomy_single_bit e H) as [Hk He].
  rewrite He at 1. rewrite land_pow2 by assumption.
  destruct (Z.testbit mask (Z.log2 e)); cbn; [|reflexivity].
  apply Z.eqb_neq. rewrite <- He.
  cbn in H.
  repeat (destruct H as [<-|H]; [vm_compute; congruence|]).
  destruct H.
Qed.

(** [Monitor] on a socket without a monitor installs an active one with
    an empty channel of a hundred slots. *)
Lemma Monitor_installs (s : socket) (ep : string) (mask : Z) :
  mu s = Unlocked -> monitor s = None ->
  exists c s',
    Monitor ep mask s = Done None s' /\
    mu s' = Unlocked /\
    monitor s' = Some {| endpoint := ep; events := mask; ch := c;
                         active := true |} /\
    chans s' !! c = Some {| buf := []; cap := 100; closed := false |} /\
    monitor_ok s'.
Proof.
  intros Hmu Hm. destruct s as [m mo d cs]. cbn in Hmu, Hm. subst.
  exists (fresh (dom cs)). eexists. split; [reflexivity|].
  split; [reflexivity|]. split; [reflexivity|].
  split; [apply lookup_insert_eq|].
  unfold monitor_ok. eexists. split; [apply lookup_insert_eq|].
  split; [reflexivity|discriminate].
Qed.

Lemma Monitor_twice (s : socket) (mon : socketMonitor) (ep : string) (mask : Z) :
  mu s = Unlocked -> monitor s = Some mon ->
  Monitor ep mask s = Done (Some (Errorf "monitor already active")) s.
Proof.
  intros Hmu Hm. destruct s as [m mo d cs]. cbn in Hmu, Hm. subst.
  reflexivity.
Qed.

End MonitorFacts.

Section MonitorClaims.

Import Monitor.
Local Open Scope Z_scope.

(** [emitEvent] returns with a socket that differs from the one it was
    given at most by one event appended to a channel. *)
Lemma emitEvent_appends (s s' : socket) event address value :
  emitEvent event address value s = Done tt s' ->
  s' = s \/
  exists mon q,
    monitor s = Some mon /\ chans s !! ch mon = Some q /\
    active mon = true /\ Z.land (events mon) event <> 0 /\
    (length (buf q) < cap q)%nat /\
    mu s' = mu s /\ monitor s' = monitor s /\
    chans s'
    = <[ch mon := {| buf := buf q ++ [{| Event := event;
                                         Address := address;
                                         Value := value |}];
                     cap := cap q; closed := false |}]> (chans s).
Proof.
  intros H.
  destruct (mu s) eqn:Emu;
    [|rewrite emitEvent_write_locked in H by assumption; discriminate|];
    (rewrite emitEvent_unfold in H by congruence;
     unfold emitEvent_send, try_send, ret in H;
     destruct (monitor s) as [mon|] eqn:Em; [|left; congruence];
     destruct (active mon) eqn:Ea; cbn [andb] in H; [|left; congruence];
     destruct (Z.eqb_spec (Z.land (events mon) event) 0) as [Ez|Ez];
       cbn [negb] in H; [left; congruence|];
     destruct (chans s !! ch mon) as [q|] eqn:Eq; [|discriminate];
     destruct (closed q); [discriminate|];
     destruct (Nat.ltb_spec (length (buf q)) (cap q)) as [Hl|Hl];
       [|left; congruence];
     right; exists mon, q; injection H as <-; cbn;
     rewrite Emu, Em; auto 10).
Qed.

(** C4. The thirteen events of the taxonomy are thirteen different
    constants, and an event that [emitEvent] delivers on the observer's
    channel carries the event, the address string and the integer value
    it was emitted with. *)
Theorem monitor_event_taxonomy :
  NoDup taxonomy /\ length taxonomy = 13%nat /\
  forall (s s' : socket) (event : Z) (address : string) (value : Z)
         (c : chan_ref),
    emitEvent event address value s = Done tt s' ->
    queue_of c s' <> queue_of c s ->
    exists ev : SocketEvent,
      queue_of c s' = queue_of c s ++ [ev] /\
      Event ev = event /\ Address ev = address /\ Value ev = value.
Proof.
  split; [|split; [reflexivity|]].
  - apply (bool_decide_unpack _). vm_compute. exact I.
  - intros s s' event address value c H Hne.
    apply emitEvent_appends in H as [->|(mon & q & Hm & Hq & _ & _ & _ & Hmu & Hmo & Hc)];
      [congruence|].
    exists {| Event := event; Address := address; Value := value |}.
    split; [|cbn; auto].
    unfold queue_of in *. rewrite Hc in *.
    rewrite lookup_insert in *.
    destruct (decide (ch mon = c)) as [<-|Hd]; [|congruence].
    rewrite Hq. reflexivity.
Qed.

(** C10. With the mutex free of a writer, [emitEvent] returns; it puts an
    event on the channel only if a monitor is installed and active and
    the event shares a bit with the registered mask (for an event of the
    taxonomy: its bit is set in the mask) and the buffer has room; and
    with the hundred slots taken it leaves the socket as it was. *)
Theorem emitEvent_guarded (s : socket) (event : Z) (address : string)
    (value : Z) :
  mu s <> WriteLocked -> monitor_ok s ->
  exists s',
    emitEvent event address value s = Done tt s' /\
    monitor_ok s' /\
    (forall c, queue_of c s' <> queue_of c s ->
       exists mon,
         monitor s = Some mon /\ ch mon = c /\ active mon = true /\
         Z.land (events mon) event <> 0 /\
         (In event taxonomy ->
          Z.testbit (events mon) (Z.log2 event) = true) /\
         (length (queue_of c s) < 100)%nat) /\
    (forall mon, monitor s = Some mon ->
       length (queue_of (ch mon) s) = 100%nat -> s' = s).
Proof.
  intros Hmu Hok.
  rewrite emitEvent_unfold by assumption.
  destruct (monitor s) as [mon|] eqn:Em.
  2:{ exists s. cbn. unfold ret. split; [reflexivity|]. split; [assumption|].
      split; [congruence|]. discriminate. }
  pose proof Hok as Hok'. unfold monitor_ok in Hok'. rewrite Em in Hok'.
  destruct Hok' as (q & Hq & Hcap & Hcl).
  rewrite (emitEvent_send_cases s mon q) by assumption.
  eexists. split; [reflexivity|].
  destruct (active mon) eqn:Ea; cbn [andb].
  2:{ split; [assumption|]. split; [congruence|]. reflexivity. }
  destruct (Z.eqb_spec (Z.land (events mon) event) 0) as [Ez|Ez];
    cbn [negb andb].
  { split; [assumption|]. split; [congruence|]. reflexivity. }
  destruct (Nat.ltb_spec (length (buf q)) (cap q)) as [Hl|Hl].
  - split; [|split].
    + unfold monitor_ok. cbn. rewrite Em. eexists.
      split; [apply lookup_insert_eq|]. cbn. split; [assumption|discriminate].
    + intros c Hc. exists mon. rewrite queue_of_insert in Hc.
      destruct (decide (ch mon = c)) as [<-|Hd]; [|congruence].
      split; [reflexivity|]. split; [reflexivity|]. split; [assumption|].
      split; [assumption|]. split.
      * intros Hin. pose proof (taxonomy_mask_bit (events mon) event Hin) as Hb.
        destruct (Z.testbit (events mon) (Z.log2 event)); [reflexivity|].
        cbn in Hb. apply Z.eqb_eq in Hb. contradiction.
      * unfold queue_of. rewrite Hq. lia.
    + intros mon' [= <-] Hfull. unfold queue_of in Hfull.
      rewrite Hq in Hfull. lia.
  - split; [assumption|]. split; [congruence|]. reflexivity.
Qed.

(** [runMonitor]'s exit keeps the invariant of the monitor field. *)
Lemma runMonitor_exit_ok (s s' : socket) :
  monitor_ok s -> runMonitor_exit s = Done tt s' -> monitor_ok s'.
Proof.
  intros Hok. unfold runMonitor_exit.
  destruct (ctx_done s); [|discriminate].
  unfold bind, Lock. destruct (mu s); try discriminate.
  unfold get_monitor. cbn.
  destruct (monitor s) as [mon|] eqn:Em.
  - unfold close_chan. cbn.
    destruct (chans s !! ch mon) as [q|] eqn:Eq; [|discriminate].
    destruct (closed q); [discriminate|]. cbn.
    intros [= <-]. unfold monitor_ok. cbn. eexists.
    split; [apply lookup_insert_eq|]. unfold monitor_ok in Hok.
    rewrite Em in Hok. destruct Hok as (q' & Hq' & Hcap & _).
    cbn. split; [congruence|reflexivity].
  - cbn. intros [= <-]. unfold monitor_ok. cbn. now rewrite Em.
Qed.

(** [StopMonitor] calls [emitEvent] with the mutex it has locked for
    writing, and so waits for itself. *)
Lemma StopMonitor_blocks (s : socket) (mon : socketMonitor) :
  mu s = Unlocked -> monitor s = Some mon -> StopMonitor s = Blocked.
Proof.
  intros Hmu Hm. destruct s as [m mo d cs]. cbn in Hmu, Hm. subst.
  reflexivity.
Qed.

Lemma StopMonitor_without_monitor (s : socket) :
  mu s = Unlocked -> monitor s = None ->
  StopMonitor s = Done (Some (Errorf "no monitor active")) s.
Proof.
  intros Hmu Hm. destruct s as [m mo d cs]. cbn in Hmu, Hm. subst.
  reflexivity.
Qed.

(** The guard of [emitEvent] fails for a monitor already marked
    inactive, whatever the event and the mask. *)
Lemma emitEvent_send_inactive (s : socket) (mon : socketMonitor)
    event address value :
  active mon = false ->
  emitEvent_send (Some mon) event address value s = Done tt s.
Proof. intros H. unfold emitEvent_send. now rewrite H. Qed.

(** C5. On a socket with an active monitor for every event and a free
    mutex, [StopMonitor] does not return: it blocks in [emitEvent] on the
    mutex it holds.  And the monitor it passes on is already inactive, so
    the body of [emitEvent] sends nothing for it.  Without a monitor
    [StopMonitor] returns its error. *)
Theorem StopMonitor_on_active_monitor :
  let s := monitored "inproc://monitor" EventAll in
  let mon := {| endpoint := "inproc://monitor"; events := EventAll;
                ch := 1%positive; active := true |} in
  let stopped := {| endpoint := "inproc://monitor"; events := EventAll;
                    ch := 1%positive; active := false |} in
  mu s = Unlocked /\ monitor s = Some mon /\ queue_of 1%positive s = [] /\
  StopMonitor s = Blocked /\
  emitEvent_send (Some stopped) EventMonitorStopped "inproc://monitor" 0 s
  = Done tt s /\
  StopMonitor new_socket
  = Done (Some (Errorf "no monitor active")) new_socket.
Proof.
  cbv zeta. repeat split; vm_compute; reflexivity.
Qed.

End MonitorClaims.

(** ** Messages and traces *)

Lemma Clone_id (m : Msg) : Clone m = m.
Proof.
  destruct m as [fs]. unfold Clone. cbn. f_equal.
  induction fs as [|f fs IH]; [reflexivity|].
  cbn. rewrite IH. f_equal.
  apply copy_same_length. apply length_make_bytes.
Qed.

Lemma omap_snoc {A B} (f : A -> option B) (l : list A) (x : A) :
  omap f (l ++ [x]) = omap f l ++ option_list (f x).
Proof. rewrite omap_app. cbn. now destruct (f x). Qed.

Lemma received_snoc d tr ev :
  received d (tr ++ [ev]) = received d tr ++ option_list (recv_of d ev).
Proof. apply omap_snoc. Qed.

Lemma captured_snoc d tr ev :
  captured d (tr ++ [ev]) = captured d tr ++ option_list (capture_of d ev).
Proof. apply omap_snoc. Qed.

Lemma forwarded_snoc d tr ev :
  forwarded d (tr ++ [ev]) = forwarded d tr ++ option_list (send_of d ev).
Proof. apply omap_snoc. Qed.

Lemma reported_snoc tr ev :
  reported (tr ++ [ev]) = reported tr ++ option_list (report_of ev).
Proof. apply omap_snoc. Qed.

Lemma produced_snoc tr ev :
  produced (tr ++ [ev]) = produced tr ++ option_list (failure_of ev).
Proof. apply omap_snoc. Qed.

Lemma failures_snoc d tr ev :
  Proxy2.failures d (tr ++ [ev])
  = Proxy2.failures d tr ++ option_list (Proxy2.own_failure_of d ev).
Proof. apply omap_snoc. Qed.

(** ** proxy.go: capture comes before forwarding *)

Section Proxy3Facts.

Import Proxy3.

Lemma sends_after_capture_snoc d tr ev :
  sends_after_capture d tr ->
  (forall m r, ev = EvSend d m r ->
     captured d tr !! length (forwarded d tr) = Some (Clone m)) ->
  sends_after_capture d (tr ++ [ev]).
Proof.
  intros G H pre m r post E.
  destruct post as [|p post _] using rev_ind.
  - apply app_inj_tail in E as [-> ->]. now apply (H m r).
  - change (pre ++ EvSend d m r :: post ++ [p])
      with (pre ++ (EvSend d m r :: post) ++ [p]) in E.
    rewrite app_assoc in E. apply app_inj_tail in E as [-> _].
    now apply (G pre m r post).
Qed.

Lemma sends_after_capture_nil d : sends_after_capture d [].
Proof. intros [|? ?] m r post E; discriminate. Qed.

Lemma capture_inv_init : capture_inv init.
Proof.
  intros d. split; [|apply sends_after_capture_nil].
  destruct d; (split; [reflexivity|]); exists []; split;
    (reflexivity || congruence).
Qed.

Lemma step_capture_inv (l : label) (s s' : state) :
  step true l s = Some s' -> capture_inv s -> capture_inv s'.
Proof.
  intros Hstep Hinv d. specialize (Hinv d).
  destruct Hinv as [[H1 (dropped & H2 & H3)] G].
  destruct s as [[rF wF qF cF] [rB wB qB cB] ec dn mn tr].
  destruct l as [d0|d0 m|d0 e|d0|d0|d0|d0|d0|d0|d0|d0 e|d0|d0|];
    try destruct d0; destruct d; try destruct dn;
    cbn in Hstep, H1, H2, H3, G.
  all: repeat match type of Hstep with
       | match ?x with _ => _ end = Some _ =>
           destruct x eqn:?; try discriminate Hstep
       | (if ?x then _ else _) = Some _ =>
           destruct x eqn:?; try discriminate Hstep
       end.
  all: injection Hstep as <-; cbn.
  all: rewrite ?app_nil_r, ?received_snoc, ?captured_snoc, ?forwarded_snoc;
    cbn.
  all: try (assert (dropped = []) as ->
              by (destruct dropped; [reflexivity|];
                  discriminate (H3 ltac:(discriminate)))).
  all: split;
    [|first [assumption
            |apply sends_after_capture_snoc;
             [assumption
             |intros m' r' E; try discriminate E;
              injection E as <- <-; rewrite H2, Clone_id; cbn;
              now apply list_lookup_middle]]].
  all: rewrite ?Clone_id.
  all: generalize dependent (captured F2B tr);
    generalize dependent (captured B2F tr);
    generalize dependent (received F2B tr);
    generalize dependent (received B2F tr);
    generalize dependent (forwarded F2B tr);
    generalize dependent (forwarded B2F tr); intros; subst.
  all: unfold lane_inv; cbn.
  all: (split; [rewrite ?app_nil_r, <- ?app_assoc; reflexivity|]).
  all: first
    [ exists dropped; split;
      [rewrite ?app_nil_r, <- ?app_assoc; reflexivity|assumption]
    | exists []; split;
      [rewrite ?app_nil_r, <- ?app_assoc; reflexivity|congruence]
    | eexists [_]; split;
      [rewrite ?app_nil_r, <- ?app_assoc; reflexivity|reflexivity]
    ].
Qed.

Lemma run_capture_inv (ls : list label) (s s' : state) :
  run true ls s = Some s' -> capture_inv s -> capture_inv s'.
Proof.
  revert s. induction ls as [|l ls IH]; intros s; cbn.
  - now intros [= <-].
  - destruct (step true l s) as [s1|] eqn:E; [|discriminate].
    intros Hrun Hinv. apply (IH s1 Hrun).
    now apply (step_capture_inv l s).
Qed.

Lemma shutdown_inv_init : shutdown_inv init.
Proof. repeat split; discriminate. Qed.

Lemma step_shutdown_inv (capture : bool) (l : label) (s s' : state) :
  step capture l s = Some s' -> shutdown_inv s -> shutdown_inv s'.
Proof.
  intros Hstep (H1 & H2 & H3 & H4 & H5).
  destruct s as [[rF wF qF cF] [rB wB qB cB] ec dn mn tr].
  cbn in H1, H2, H3, H4, H5.
  destruct l as [d0|d0 m|d0 e|d0|d0|d0|d0|d0|d0|d0|d0 e|d0|d0|];
    try destruct d0; destruct capture; cbn in Hstep.
  all: repeat match type of Hstep with
       | match ?x with _ => _ end = Some _ =>
           destruct x eqn:?; try discriminate Hstep
       | (if ?x then _ else _) = Some _ =>
           destruct x eqn:?; try discriminate Hstep
       end.
  all: injection Hstep as <-; unfold shutdown_inv; cbn.
  all: rewrite ?app_nil_r, ?reported_snoc; cbn; rewrite ?app_nil_r.
  all: repeat split; intros; try assumption; try congruence.
  all: try match goal with
           | Hp : past_wait _ = true |- _ => destruct (H2 Hp); congruence
           end.
  all: try (rewrite H1; cbn; now rewrite <- ?app_assoc).
  all: try solve [auto].
  all: now destruct (H2 eq_refl).
Qed.

Lemma run_shutdown_inv (capture : bool) (ls : list label) (s s' : state) :
  run capture ls s = Some s' -> shutdown_inv s -> shutdown_inv s'.
Proof.
  revert s. induction ls as [|l ls IH]; intros s; cbn.
  - now intros [= <-].
  - destruct (step capture l s) as [s1|] eqn:E; [|discriminate].
    intros Hrun Hinv. apply (IH s1 Hrun).
    now apply (step_shutdown_inv capture l s).
Qed.

(** C2. With a capture socket, in every run of the proxy: each [Send] that
    forwards a message comes after the [capture.Send] of its clone (the
    clone is the next one in the order of capture); the clones captured
    are those of the messages received, in order, but for the message
    just received; and for that one the capture is the goroutine's next
    statement, which nothing holds back. *)
Theorem capture_before_forward (ls : list label) (s : state) :
  run true ls init = Some s ->
  forall d : dir,
    (forall pre m r post,
       trace s = pre ++ EvSend d m r :: post ->
       captured d pre !! length (forwarded d pre) = Some (Clone m)) /\
    captured d (trace s) ++ map Clone (at_capture (lane_of d s))
    = map Clone (received d (trace s)) /\
    (forall m,
       rpc (lane_of d s) = RGot m ->
       step true (LCapture d) s
       = Some (emit [EvCapture d (Clone m)]
                 (set_lane d (set_rpc (RPut m) (lane_of d s)) s))).
Proof.
  intros Hrun d.
  destruct (run_capture_inv ls init s Hrun capture_inv_init d)
    as [[H1 _] G].
  split; [exact G|]. split.
  - rewrite <- H1, map_app.
    assert (E : forall l : list Msg, map Clone l = l).
    { intros l. rewrite <- (map_id l) at 2.
      apply map_ext. apply Clone_id. }
    now rewrite !E.
  - intros m Hm. cbn. now rewrite Hm.
Qed.



Lemma returned_after_shutdown (capture : bool) (ls : list label)
    (s : state) (e : error) :
  run capture ls init = Some s -> main s = MReturned e ->
  head (reported (trace s)) = Some e /\
  rpc (laneF s) = RExit /\ rpc (laneB s) = RExit /\ done s = true.
Proof.
  intros Hrun Hm.
  destruct (run_shutdown_inv capture ls init s Hrun shutdown_inv_init)
    as (H1 & H2 & H3 & _).
  rewrite Hm in *. rewrite H1. cbn.
  destruct (H2 eq_refl). auto.
Qed.

(** No receiving goroutine is left to send on a closed channel. *)
Lemma queue_open_while_receiving (capture : bool) (ls : list label)
    (s : state) (d : dir) :
  run capture ls init = Some s ->
  qclosed (lane_of d s) = true -> rpc (lane_of d s) = RExit.
Proof.
  intros Hrun Hc.
  destruct (run_shutdown_inv capture ls init s Hrun shutdown_inv_init)
    as (_ & H2 & _ & H4 & H5).
  destruct d; cbn in *; [destruct (H2 (H4 Hc))|destruct (H2 (H5 Hc))];
    assumption.
Qed.

End Proxy3Facts.

(** ** The proxy of two sockets *)

Section Proxy2Facts.

Import Proxy2.

Lemma loops_inv_init : loops_inv init.
Proof. split; [reflexivity|]. intros []; reflexivity. Qed.

Lemma step_loops_inv (l : label) (s s' : state) :
  step l s = Some s' -> loops_inv s -> loops_inv s'.
Proof.
  intros Hstep [H1 H2].
  pose proof (H2 F2B) as HF. pose proof (H2 B2F) as HB. clear H2.
  destruct s as [pF pB ec mn tr]. cbn in H1, HF, HB.
  destruct l as [d0 m|d0 e|d0|d0 e|d0|]; try destruct d0; cbn in Hstep.
  all: repeat match type of Hstep with
       | match ?x with _ => _ end = Some _ =>
           destruct x eqn:?; try discriminate Hstep
       | (if ?x then _ else _) = Some _ =>
           destruct x eqn:?; try discriminate Hstep
       end.
  all: injection Hstep as <-; unfold loops_inv; cbn.
  all: rewrite ?reported_snoc; cbn; rewrite ?app_nil_r.
  all: (split; [first [assumption
                      |rewrite H1; cbn; now rewrite <- ?app_assoc]|]).
  all: intros []; cbn; rewrite ?failures_snoc; cbn; rewrite ?app_nil_r;
    try assumption; try (rewrite ?HF, ?HB; reflexivity); eauto.
Qed.

Lemma run_loops_inv (ls : list label) (s s' : state) :
  run ls s = Some s' -> loops_inv s -> loops_inv s'.
Proof.
  revert s. induction ls as [|l ls IH]; intros s; cbn.
  - now intros [= <-].
  - destruct (step l s) as [s1|] eqn:E; [|discriminate].
    intros Hrun Hinv. apply (IH s1 Hrun).
    now apply (step_loops_inv l s).
Qed.

End Proxy2Facts.

(** ** The wire codec *)

Section WireCodecFacts.

Import WireCodec.
Local Open Scope N_scope.

Lemma length_be_bytes (k : nat) (n : N) : length (be_bytes k n) = k.
Proof.
  revert n. induction k as [|k IH]; intros n; cbn; [reflexivity|].
  rewrite length_app, IH. cbn. lia.
Qed.

Lemma be_value_snoc (l : list byte) (b : byte) :
  be_value (l ++ [b]) = be_value l * 256 + Byte.to_N b.
Proof. unfold be_value. now rewrite fold_left_app. Qed.

Lemma be_value_be_bytes (k : nat) (n : N) :
  n < 256 ^ N.of_nat k -> be_value (be_bytes k n) = n.
Proof.
  revert n. induction k as [|k IH]; intros n Hn.
  - cbn in *. lia.
  - cbn [be_bytes]. rewrite be_value_snoc, to_N_byte_of_N.
    rewrite IH.
    + pose proof (N.div_mod n 256). lia.
    + rewrite Nat2N.inj_succ, N.pow_succ_r' in Hn.
      apply N.Div0.div_lt_upper_bound. lia.
Qed.

(** The flags byte gives back the two bits it was made of. *)
Lemma flags_bits (more long : bool) :
  let flags := byte_of_N (N.lor (if more then flag_more else 0)
                                (if long then flag_long else 0)) in
  N.testbit (Byte.to_N flags) 0 = more /\
  N.testbit (Byte.to_N flags) 1 = long.
Proof. destruct more, long; vm_compute; auto. Qed.

Lemma take_payload_exact (max : N) (more : bool) (hdr : nat)
    (payload rest : list byte) :
  N.of_nat (length payload) <= max ->
  take_payload max more (N.of_nat (length payload)) hdr (payload ++ rest)
  = Frame more payload rest (hdr + length payload).
Proof.
  intros Hmax. unfold take_payload.
  destruct (N.ltb_spec max (N.of_nat (length payload))); [lia|].
  rewrite Nat2N.id.
  destruct (Nat.ltb_spec (length (payload ++ rest)) (length payload)) as [Hl|_].
  - rewrite length_app in Hl. lia.
  - now rewrite take_app_length, drop_app_length.
Qed.

Lemma length_encode_frame (more : bool) (payload : list byte) :
  length (encode_frame more payload)
  = ((if (255 <? N.of_nat (length payload))%N then 9 else 2)
     + length payload)%nat.
Proof.
  unfold encode_frame. cbn [length]. rewrite length_app.
  destruct (255 <? N.of_nat (length payload)).
  - rewrite length_be_bytes. lia.
  - cbn. lia.
Qed.

(** One frame read back from the head of a buffer. *)
Lemma decode_frame_encode_frame (max : N) (more : bool)
    (payload rest : list byte) :
  max < 2 ^ 64 -> N.of_nat (length payload) <= max ->
  decode_frame max (encode_frame more payload ++ rest)
  = Frame more payload rest (length (encode_frame more payload)).
Proof.
  intros Hmax Hlen. rewrite length_encode_frame.
  unfold encode_frame. cbn [app decode_frame].
  destruct (flags_bits more (255 <? N.of_nat (length payload))) as [-> ->].
  destruct (N.ltb_spec 255 (N.of_nat (length payload))) as [Hl|Hl].
  - rewrite <- app_assoc.
    destruct (Nat.ltb_spec (length (be_bytes 8 (N.of_nat (length payload))
                                      ++ payload ++ rest)) 8) as [H8|_].
    { rewrite length_app, length_be_bytes in H8. lia. }
    rewrite take_app_length', drop_app_length'
      by (now rewrite length_be_bytes).
    rewrite be_value_be_bytes by (change (256 ^ N.of_nat 8) with (2 ^ 64); lia).
    now apply take_payload_exact.
  - cbn [app]. rewrite to_N_byte_of_N, N.mod_small by lia.
    now apply take_payload_exact.
Qed.

Lemma length_encode_ge (M : Message) : (length M <= length (encode M))%nat.
Proof.
  induction M as [|f M IH]; [cbn; lia|].
  destruct M as [|g M].
  - cbn [encode]. rewrite length_encode_frame.
    destruct (255 <? N.of_nat (length f)); cbn; lia.
  - change (encode (f :: g :: M))
      with (encode_frame true f ++ encode (g :: M)).
    rewrite length_app, length_encode_frame.
    destruct (255 <? N.of_nat (length f)); cbn [length] in *; lia.
Qed.

Lemma decode_loop_encode (max : N) (M : Message) :
  max < 2 ^ 64 ->
  M <> [] ->
  Forall (fun f => N.of_nat (length f) <= max) M ->
  forall (rounds : nat) (partial : Message) (consumed : nat)
         (rest : list byte),
    (length M <= rounds)%nat ->
    decode_loop rounds max partial consumed (encode M ++ rest)
    = Decoded (partial ++ M) (consumed + length (encode M)).
Proof.
  intros Hmax. induction M as [|f M IH]; [congruence|].
  intros _ Hall rounds partial consumed rest Hr.
  apply Forall_cons in Hall as [Hf Hall].
  destruct rounds as [|rounds]; [cbn in Hr; lia|].
  destruct M as [|g M].
  - cbn [encode decode_loop].
    now rewrite decode_frame_encode_frame.
  - change (encode (f :: g :: M))
      with (encode_frame true f ++ encode (g :: M)).
    cbn [decode_loop]. rewrite <- app_assoc.
    rewrite decode_frame_encode_frame by assumption.
    rewrite IH; [|discriminate|assumption|cbn [length] in *; lia].
    rewrite <- app_assoc, length_app. cbn [app]. f_equal. lia.
Qed.


End WireCodecFacts.

(** ** The return value of the proxies *)



(** After [Proxy] has returned, the other direction still forwards. *)
Example forwarding_after_return :
  Proxy2.main (reached2 return_then_forward) = Proxy2.MReturned peer_closed /\
  Proxy2.trace (reached2 return_then_forward)
  = [EvRecvErr F2B peer_closed; EvReport peer_closed; EvReturn peer_closed;
     EvRecv B2F hello; EvSend B2F hello None].
Proof. split; reflexivity. Qed.

(** In the proxy of three sockets the error returned is the first one
    reported, which need not be the first one produced. *)
Example reported_out_of_order :
  Proxy3.main (reached3 false overtaking_run) = Proxy3.MReturned send_failed /\
  produced (Proxy3.trace (reached3 false overtaking_run))
  = [peer_closed; send_failed] /\
  reported (Proxy3.trace (reached3 false overtaking_run)) = [send_failed].
Proof. repeat split; reflexivity. Qed.

(** ** options.go *)


(** ** Examples *)

Example hex_of_hi : hex.EncodeToString [x68; x69; xff] = "6869ff".
Proof. reflexivity. Qed.

Example hex_upper_case : hex.DecodeString "6869FF" = ([x68; x69; xff], None).
Proof. reflexivity. Qed.

Example hex_odd_length : hex.DecodeString "686" = ([x68], Some ErrLength).
Proof. reflexivity. Qed.

Example hex_invalid :
  hex.DecodeString "invalid" = ([], Some (InvalidByteError "i")).
Proof. reflexivity. Qed.

Example registry_refuses_short_key :
  AuthSimple.AuthCurvePublic "00" = ("00", None) /\
  AuthRegistry.AuthCurvePublic "00"
  = ("", Some (Errorf "invalid secret key length")).
Proof. split; reflexivity. Qed.

Example encode_two_frames :
  WireCodec.encode [[x68; x69]; []] = [x01; x02; x68; x69; x00; x00].
Proof. reflexivity. Qed.

Example encode_long_frame :
  firstn 9 (WireCodec.encode [make_bytes 256])
  = [x02; x00; x00; x00; x00; x00; x00; x01; x00].
Proof. reflexivity. Qed.

Example decode_partial :
  WireCodec.decode 1024 [x01; x02; x68; x69; x00] = WireCodec.Incomplete.
Proof. reflexivity. Qed.

Example decode_over_maximum :
  WireCodec.decode 1 [x00; x02; x68; x69] = WireCodec.ProtocolViolation.
Proof. reflexivity. Qed.

Example monitor_full_drops :
  let full :=
    {| Monitor.mu := Monitor.Unlocked;
       Monitor.monitor := Some {| Monitor.endpoint := "inproc://monitor";
                                  Monitor.events := Monitor.EventAll;
                                  Monitor.ch := 1%positive;
                                  Monitor.active := true |};
       Monitor.ctx_done := false;
       Monitor.chans :=
         {[1%positive :=
             {| Monitor.buf :=
                  repeat {| Monitor.Event := Monitor.EventConnected;
                            Monitor.Address := "a"; Monitor.Value := 0 |} 100;
                Monitor.cap := 100; Monitor.closed := false |}]} |} in
  Monitor.emitEvent Monitor.EventClosed "b" 1 full = Monitor.Done tt full.
Proof. reflexivity. Qed.

Example monitor_masked_out :
  let s := Monitor.monitored "inproc://monitor" Monitor.EventConnected in
  Monitor.emitEvent Monitor.EventClosed "b" 1 s = Monitor.Done tt s.
Proof. reflexivity. Qed.

(** ** Instances *)


Lemma capture_before_forward_witness :
  Proxy3.trace (reached3 true forward_once)
  = [EvRecv F2B hello; EvCapture F2B (Clone hello); EvSend F2B hello None] /\
  captured F2B [EvRecv F2B hello; EvCapture F2B (Clone hello)]
    !! length (forwarded F2B [EvRecv F2B hello; EvCapture F2B (Clone hello)])
  = Some (Clone hello).
Proof.
  split; [reflexivity|].
  exact (proj1 (capture_before_forward forward_once
                  (reached3 true forward_once) eq_refl F2B)
           [EvRecv F2B hello; EvCapture F2B (Clone hello)] hello None []
           eq_refl).
Defined.


Lemma monitor_event_taxonomy_witness :
  let s := Monitor.monitored "inproc://monitor" Monitor.EventAll in
  exists s' ev,
    Monitor.emitEvent Monitor.EventConnected "tcp://127.0.0.1:5555" 7 s
    = Monitor.Done tt s' /\
    Monitor.queue_of 1%positive s' = Monitor.queue_of 1%positive s ++ [ev] /\
    Monitor.Event ev = Monitor.EventConnected /\
    Monitor.Address ev = "tcp://127.0.0.1:5555" /\
    Monitor.Value ev = 7%Z.
Proof.
  cbv zeta.
  destruct (Monitor.emitEvent Monitor.EventConnected "tcp://127.0.0.1:5555" 7
              (Monitor.monitored "inproc://monitor" Monitor.EventAll))
    as [[] s'| |] eqn:E; try (vm_compute in E; discriminate E).
  exists s'.
  destruct (proj2 (proj2 monitor_event_taxonomy) _ s' _ _ _ 1%positive E)
    as (ev & H).
  - vm_compute in E. injection E as <-. vm_compute. discriminate.
  - exists ev. split; [reflexivity|exact H].
Defined.

Lemma emitEvent_guarded_witness :
  exists s',
    Monitor.emitEvent Monitor.EventConnected "tcp://127.0.0.1:5555" 7
      (Monitor.monitored "inproc://monitor" Monitor.EventAll)
    = Monitor.Done tt s' /\ Monitor.monitor_ok s'.
Proof.
  destruct (emitEvent_guarded
              (Monitor.monitored "inproc://monitor" Monitor.EventAll)
              Monitor.EventConnected "tcp://127.0.0.1:5555" 7)
    as (s' & H & Hok & _).
  - vm_compute. discriminate.
  - exists {| Monitor.buf := []; Monitor.cap := 100; Monitor.closed := false |}.
    split; [reflexivity|]. split; [reflexivity|discriminate].
  - exists s'. split; assumption.
Defined.

Lemma curve_public_is_secret_witness :
  fst (fst (AuthSimple.NewCurveKeypair constant_source))
  = snd (fst (AuthSimple.NewCurveKeypair constant_source)) /\
  AuthSimple.AuthCurvePublic (hex.EncodeToString (make_bytes 32))
  = (hex.EncodeToString (make_bytes 32), None) /\
  AuthSimple.AuthCurvePublic "2A2a" = ("2A2a", None) /\
  snd (AuthSimple.AuthCurvePublic "invalid") <> None.
Proof.
  destruct curve_public_is_secret as (H1 & H2 & H3 & H4).
  split; [|split; [|split]].
  - apply (H1 constant_source). reflexivity.
  - apply H2. reflexivity.
  - apply H3. reflexivity.
  - apply H4. reflexivity.
Defined.

(** * Further properties of the code *)

(** ** The registry of auth.go *)

Section RegistryMore.

Import AuthRegistry.

Lemma exec_all_from_init (os : list op) :
  os <> [] ->
  exec_all os pkg_init
  = Some (tt, singleton_pkg first_loc (after_ops os empty_Auth)).
Proof.
  destruct os as [|o os]; [congruence|]. intros _.
  cbn [exec_all]. unfold bind at 1.
  now rewrite exec_first, exec_singleton, exec_all_singleton.
Qed.

Lemma instance_after_ops (os : list op) :
  instance_after os = Some (after_ops os empty_Auth).
Proof.
  unfold instance_after. destruct os as [|o os]; [reflexivity|].
  unfold bind at 1. rewrite exec_all_from_init by discriminate.
  unfold bind. now rewrite getAuth_again, load_singleton.
Qed.

Lemma after_ops_app (os1 os2 : list op) (a : Auth) :
  after_ops (os1 ++ os2) a = after_ops os2 (after_ops os1 a).
Proof. apply fold_left_app. Qed.

Lemma running_after_ops (os : list op) (a : Auth) :
  running (after_ops os a)
  = fold_left (fun b o => match o with
                          | OpStart => true
                          | OpStop => false
                          | _ => b
                          end) os (running a).
Proof.
  revert a. induction os as [|o os IH]; intros a; [reflexivity|].
  cbn [after_ops fold_left]. fold (after_ops os (on_instance o a)).
  rewrite IH. now destruct o.
Qed.

Lemma simple_started (os : list op) (b : bool) :
  fold_left simple_exec os b
  = fold_left (fun b o => match o with
                          | OpStart => true
                          | OpStop => false
                          | _ => b
                          end) os b.
Proof.
  revert b. induction os as [|o os IH]; intros b; [reflexivity|].
  cbn [fold_left]. rewrite IH. now destruct o, b.
Qed.

(** X1. In both variants of the file, [AuthStart] returns its error exactly
    when the last [AuthStart] or [AuthStop] before it was an [AuthStart];
    the other registry calls make no difference. *)
Theorem AuthStart_fails_iff_started (os : list op) :
  start_result_after os
  = Some (if started os
          then Some (Errorf "authentication already running") else None) /\
  fst (AuthSimple.AuthStart (fold_left simple_exec os false))
  = (if started os then Some (Errorf "already started") else None).
Proof.
  split.
  - unfold start_result_after.
    assert (H : forall a,
      AuthStart (singleton_pkg first_loc a)
      = Some (if running a
              then Some (Errorf "authentication already running") else None,
              singleton_pkg first_loc (on_instance OpStart a))).
    { intros a. unfold AuthStart, bind.
      rewrite getAuth_again, load_singleton.
      destruct a as [v [] c al de]; cbn [running]; [reflexivity|].
      now rewrite store_singleton. }
    destruct os as [|o os]; [reflexivity|].
    unfold bind at 1. rewrite exec_all_from_init by discriminate.
    rewrite H. unfold started. now rewrite running_after_ops.
  - rewrite simple_started. unfold started, AuthSimple.AuthStart.
    now destruct (fold_left _ os false).
Qed.

(** X2. [AuthStop] empties the tables of allowed addresses, denied
    addresses and curve keys, whatever was registered before, and keeps the
    verbose flag; an [AuthStart] after it starts from the empty tables. *)
Theorem AuthStop_clears_registry (os : list op) :
  exists v : bool,
    option_map verbose (instance_after os) = Some v /\
    instance_after (os ++ [OpStop])
    = Some {| verbose := v; running := false; curveKeys := ∅;
              allow := ∅; deny := ∅ |} /\
    instance_after (os ++ [OpStop; OpStart])
    = Some {| verbose := v; running := true; curveKeys := ∅;
              allow := ∅; deny := ∅ |}.
Proof.
  exists (verbose (after_ops os empty_Auth)).
  rewrite !instance_after_ops, !after_ops_app. cbn. auto.
Qed.

Lemma append_at_twice (d : string) (a1 a2 : list string)
    (m : gmap string (list string)) :
  append_at d a2 (append_at d a1 m) = append_at d (a1 ++ a2) m.
Proof.
  unfold append_at. rewrite lookup_insert_eq, insert_insert_eq. cbn.
  now rewrite app_assoc.
Qed.

Lemma append_at_commute (d1 d2 : string) (a1 a2 : list string)
    (m : gmap string (list string)) :
  d1 <> d2 ->
  append_at d2 a2 (append_at d1 a1 m) = append_at d1 a1 (append_at d2 a2 m).
Proof.
  intros Hne. unfold append_at.
  rewrite !lookup_insert_ne by congruence.
  now apply insert_insert_ne.
Qed.

(** X3. [AuthAllow] appends: the addresses of a domain are those it had,
    followed by the new ones, duplicates and all, and the other domains
    keep theirs; two calls for one domain do what one call with both lists
    does.  [AuthDeny] does the same on its own table. *)
Theorem AuthAllow_appends (os : list op) (d : string) (a1 a2 : list string) :
  exists a a' : Auth,
    instance_after os = Some a /\
    instance_after (os ++ [OpAllow d a1]) = Some a' /\
    allow a' !! d = Some (default [] (allow a !! d) ++ a1) /\
    (forall d', d' <> d -> allow a' !! d' = allow a !! d') /\
    instance_after (os ++ [OpAllow d a1; OpAllow d a2])
    = instance_after (os ++ [OpAllow d (a1 ++ a2)]) /\
    instance_after (os ++ [OpDeny d a1; OpDeny d a2])
    = instance_after (os ++ [OpDeny d (a1 ++ a2)]).
Proof.
  exists (after_ops os empty_Auth),
         (after_ops (os ++ [OpAllow d a1]) empty_Auth).
  rewrite !instance_after_ops, !after_ops_app.
  split; [reflexivity|]. split; [reflexivity|]. cbn.
  split; [apply lookup_insert_eq|].
  split; [intros d' Hd; unfold append_at; now rewrite lookup_insert_ne|].
  now rewrite !append_at_twice.
Qed.

(** X4. The two tables are independent: an [AuthAllow] and an [AuthDeny]
    can be exchanged, also for the same domain and address, neither removes
    what the other recorded, and calls for different domains can be
    exchanged. *)
Theorem AuthAllow_AuthDeny_independent (os : list op) (d1 d2 : string)
    (a1 a2 : list string) :
  instance_after (os ++ [OpAllow d1 a1; OpDeny d2 a2])
  = instance_after (os ++ [OpDeny d2 a2; OpAllow d1 a1]) /\
  option_map deny (instance_after (os ++ [OpAllow d1 a1]))
  = option_map deny (instance_after os) /\
  option_map allow (instance_after (os ++ [OpDeny d2 a2]))
  = option_map allow (instance_after os) /\
  (d1 <> d2 ->
   instance_after (os ++ [OpAllow d1 a1; OpAllow d2 a2])
   = instance_after (os ++ [OpAllow d2 a2; OpAllow d1 a1])).
Proof.
  rewrite !instance_after_ops, !after_ops_app. cbn.
  repeat split. intros Hne. now rewrite append_at_commute.
Qed.

(** X5. A domain has at most one curve key: [AuthCurveAdd] replaces the key
    of the domain; [AuthCurveRemove] with the registered key removes it,
    with another key it changes nothing, and for a domain without a key it
    changes nothing either. *)
Theorem AuthCurve_one_key_per_domain (os : list op) (d k k' : string) :
  option_map (fun a => curveKeys a !! d)
    (instance_after (os ++ [OpCurveAdd d k'; OpCurveAdd d k]))
  = Some (Some k) /\
  instance_after (os ++ [OpCurveAdd d k'; OpCurveAdd d k])
  = instance_after (os ++ [OpCurveAdd d k]) /\
  option_map (fun a => curveKeys a !! d)
    (instance_after (os ++ [OpCurveAdd d k; OpCurveRemove d k]))
  = Some None /\
  (k' <> k ->
   instance_after (os ++ [OpCurveAdd d k; OpCurveRemove d k'])
   = instance_after (os ++ [OpCurveAdd d k])) /\
  (option_map (fun a => curveKeys a !! d) (instance_after os) = Some None ->
   instance_after (os ++ [OpCurveRemove d k]) = instance_after os).
Proof.
  rewrite !instance_after_ops, !after_ops_app. cbn.
  split; [now rewrite lookup_insert_eq|].
  split; [now rewrite insert_insert_eq|].
  split.
  { rewrite lookup_insert_eq. cbn. rewrite decide_True by reflexivity.
    now rewrite lookup_delete_eq. }
  split.
  - intros Hne. rewrite lookup_insert_eq. cbn.
    now rewrite decide_False by congruence.
  - intros [= H]. f_equal. rewrite H. cbn.
    destruct (after_ops os empty_Auth) as [v r c al de]. cbn in *.
    destruct (decide ("" = k)); [|reflexivity].
    now rewrite delete_id.
Qed.

End RegistryMore.

(** ** The key helpers of auth.go *)

Lemma valid_hex_EncodeToString (d : list byte) :
  valid_hex (hex.EncodeToString d) = true.
Proof.
  apply DecodeString_ok_iff. now rewrite DecodeString_EncodeToString.
Qed.

Lemma hexdigit_fromHexChar (c : ascii) (a : N) :
  hex.fromHexChar c = Some a ->
  (a < 16)%N /\ hex.hexdigit a = lower_hex_char c.
Proof.
  destruct c as [[] [] [] [] [] [] [] []]; vm_compute; intros [= <-];
    split; reflexivity.
Qed.

Lemma nibbles_of_byte (a b : N) :
  (a < 16)%N -> (b < 16)%N ->
  hex.hi (byte_of_N (N.lor (N.shiftl a 4) b)) = a /\
  hex.lo (byte_of_N (N.lor (N.shiftl a 4) b)) = b.
Proof.
  intros Ha Hb.
  assert (Ea : In a (map N.of_nat (seq 0 16))).
  { apply in_map_iff. exists (N.to_nat a). split; [lia|].
    apply in_seq. lia. }
  assert (Eb : In b (map N.of_nat (seq 0 16))).
  { apply in_map_iff. exists (N.to_nat b). split; [lia|].
    apply in_seq. lia. }
  cbn in Ea, Eb.
  repeat (destruct Ea as [<-|Ea]; [
    repeat (destruct Eb as [<-|Eb]; [vm_compute; split; reflexivity|]);
    destruct Eb|]).
  destruct Ea.
Qed.

Lemma EncodeToString_DecodeString (t : string) :
  snd (hex.DecodeString t) = None ->
  hex.EncodeToString (fst (hex.DecodeString t)) = lower_hex t.
Proof.
  induction t as [|c|p q t IH] using string_pair_ind.
  - reflexivity.
  - cbn. destruct (hex.fromHexChar c); cbn; discriminate.
  - cbn [hex.DecodeString].
    destruct (hex.fromHexChar p) as [a|] eqn:Ep; [|cbn; discriminate].
    destruct (hex.fromHexChar q) as [b|] eqn:Eq; [|cbn; discriminate].
    destruct (hex.DecodeString t) as [out err]. cbn [fst snd] in *.
    intros H. specialize (IH H).
    destruct (hexdigit_fromHexChar p a Ep) as [Ha Hp].
    destruct (hexdigit_fromHexChar q b Eq) as [Hb Hq].
    destruct (nibbles_of_byte a b Ha Hb) as [Hh Hl].
    cbn [hex.EncodeToString lower_hex]. now rewrite Hh, Hl, Hp, Hq, IH.
Qed.

(** X6. The registry variant of [AuthCurvePublic] returns its argument
    exactly for valid hex of 64 characters, the encoding of 32 bytes; for
    everything else it returns an error and the empty string. *)
Theorem registry_curve_public_32_bytes (s : string) :
  (AuthRegistry.AuthCurvePublic s = (s, None) <->
   valid_hex s = true /\ String.length s = 64) /\
  (AuthRegistry.AuthCurvePublic s <> (s, None) ->
   fst (AuthRegistry.AuthCurvePublic s) = "" /\
   snd (AuthRegistry.AuthCurvePublic s) <> None).
Proof.
  split; [apply registry_curve_public|].
  unfold AuthRegistry.AuthCurvePublic.
  destruct (hex.DecodeString s) as [out [e|]]; cbn.
  - intros _. split; [reflexivity|discriminate].
  - destruct (length out =? 32)%nat; cbn.
    + intros H. now contradiction H.
    + intros _. split; [reflexivity|discriminate].
Qed.

(** X7. [NewCurveKeypair] is the same in both variants.  When the random
    source fails it returns two empty strings and the error; otherwise it
    returns twice the 64 hexadecimal characters of the 32 random bytes, and
    [AuthCurvePublic] of either variant accepts that secret key and returns
    the public key. *)
Theorem NewCurveKeypair_result (r : rand_source) :
  AuthSimple.NewCurveKeypair r = AuthRegistry.NewCurveKeypair r /\
  match rand_failure r with
  | Some e => AuthSimple.NewCurveKeypair r = ("", "", Some e)
  | None =>
      let h := hex.EncodeToString (map (entropy r) (seq 0 32)) in
      AuthSimple.NewCurveKeypair r = (h, h, None) /\
      String.length h = 64 /\
      AuthSimple.AuthCurvePublic h = (h, None) /\
      AuthRegistry.AuthCurvePublic h = (h, None)
  end.
Proof.
  split; [reflexivity|].
  unfold AuthSimple.NewCurveKeypair, rand_Read.
  destruct (rand_failure r) as [e|]; [reflexivity|].
  cbv zeta. rewrite length_make_bytes.
  rewrite copy_same_length
    by (now rewrite length_make_bytes, length_map, length_seq).
  split; [reflexivity|].
  assert (L : String.length
                (hex.EncodeToString (map (entropy r) (seq 0 32))) = 64).
  { now rewrite length_EncodeToString, length_map, length_seq. }
  split; [exact L|]. split.
  - unfold AuthSimple.AuthCurvePublic.
    now rewrite DecodeString_EncodeToString.
  - apply registry_curve_public. split; [|exact L].
    apply valid_hex_EncodeToString.
Qed.

(** X8. [Z85decode] returns an error exactly when its text is not valid
    hex.  When it succeeds it returns half as many bytes as the text has
    characters, and [Z85encode] of them is the text in lower case. *)
Theorem Z85decode_text (t : string) :
  (snd (AuthRegistry.Z85decode t) = None <-> valid_hex t = true) /\
  (valid_hex t = true ->
   String.length t = 2 * length (fst (AuthRegistry.Z85decode t)) /\
   AuthRegistry.Z85encode (fst (AuthRegistry.Z85decode t)) = lower_hex t) /\
  AuthSimple.Z85decode t = AuthRegistry.Z85decode t.
Proof.
  unfold AuthRegistry.Z85decode, AuthRegistry.Z85encode.
  split; [apply DecodeString_ok_iff|]. split; [|reflexivity].
  intros H. apply DecodeString_ok_iff in H. split.
  - now apply length_DecodeString.
  - now apply EncodeToString_DecodeString.
Qed.

(** X9. [Z85encode] writes two lower-case hexadecimal digits per byte: its
    text is valid hex, twice as long as the data (and not the five
    characters per four bytes of Z85). *)
Theorem Z85encode_shape (d : list byte) :
  String.length (AuthRegistry.Z85encode d) = 2 * length d /\
  valid_hex (AuthRegistry.Z85encode d) = true /\
  lower_hex (AuthRegistry.Z85encode d) = AuthRegistry.Z85encode d /\
  AuthSimple.Z85encode d = AuthRegistry.Z85encode d.
Proof.
  unfold AuthRegistry.Z85encode.
  split; [apply length_EncodeToString|].
  split; [apply valid_hex_EncodeToString|]. split; [|reflexivity].
  rewrite <- EncodeToString_DecodeString
    by (now rewrite DecodeString_EncodeToString).
  now rewrite DecodeString_EncodeToString.
Qed.

(** ** More on the socket monitor *)

Section MonitorMore.

Import Monitor.
Local Open Scope Z_scope.

(** X10. With the mutex free, [Monitor] on a socket without a monitor
    returns nil and installs an active monitor with the given endpoint and
    mask on a new, empty channel of a hundred slots, leaving the channels
    that exist as they are; [GetMonitorChannel] then returns that channel.
    On a socket that has a monitor it returns its error and changes
    nothing.  With the mutex held it waits. *)
Theorem Monitor_installs_once (s : socket) (ep : string) (mask : Z) :
  (mu s = Unlocked -> monitor s = None ->
   exists c s',
     Monitor ep mask s = Done None s' /\
     chans s !! c = None /\
     chans s' = <[c := {| buf := []; cap := 100; closed := false |}]> (chans s) /\
     monitor s' = Some {| endpoint := ep; events := mask; ch := c;
                          active := true |} /\
     mu s' = Unlocked /\ ctx_done s' = ctx_done s /\
     GetMonitorChannel s' = Done (Some c) s') /\
  (mu s = Unlocked -> monitor s <> None ->
   Monitor ep mask s = Done (Some (Errorf "monitor already active")) s) /\
  (mu s <> Unlocked -> Monitor ep mask s = Blocked).
Proof.
  destruct s as [m mo d cs]. cbn. split; [|split].
  - intros -> ->. exists (fresh (dom cs)). eexists.
    split; [reflexivity|]. cbn.
    split; [apply not_elem_of_dom, is_fresh|]. repeat split.
  - intros ->. destruct mo; [reflexivity|congruence].
  - intros H. destruct m; [congruence|reflexivity|reflexivity].
Qed.

Lemma emit_all_step (ev : SocketEvent) (evs : list SocketEvent) (s : socket) :
  mu s <> WriteLocked ->
  emit_all (ev :: evs) s
  = match emitEvent_send (monitor s) (Event ev) (Address ev) (Value ev) s with
    | Done _ s' => emit_all evs s'
    | Blocked => Blocked
    | Panic => Panic
    end.
Proof.
  intros H. cbn [emit_all]. unfold bind at 1.
  now rewrite emitEvent_unfold.
Qed.

(** X11. Events emitted one after the other on an active monitor are
    queued in the order of emission, those that share no bit with the mask
    left out, until the channel holds as many as its capacity; the rest is
    dropped, and no call blocks or panics. *)
Theorem emit_all_queue (evs : list SocketEvent) (s : socket)
    (mon : socketMonitor) (q : chan) :
  mu s <> WriteLocked ->
  monitor s = Some mon -> active mon = true ->
  chans s !! ch mon = Some q -> closed q = false ->
  (length (buf q) <= cap q)%nat ->
  exists s',
    emit_all evs s = Done tt s' /\
    queue_of (ch mon) s'
    = take (cap q) (buf q ++ filter (passes (events mon)) evs) /\
    monitor s' = monitor s /\ mu s' = mu s.
Proof.
  revert s q. induction evs as [|ev evs IH]; intros s q Hmu Hm Ha Hq Hc Hl.
  - exists s. split; [reflexivity|]. unfold queue_of. rewrite Hq.
    rewrite filter_nil, app_nil_r, take_ge by assumption. auto.
  - rewrite emit_all_step by assumption. rewrite Hm.
    rewrite (emitEvent_send_cases s mon q) by (assumption || congruence).
    rewrite Ha. cbn [andb]. rewrite filter_cons.
    change (negb (Z.land (events mon) (Event ev) =? 0))
      with (passes (events mon) ev).
    destruct (passes (events mon) ev) eqn:Ep; cbn [andb].
    + destruct (Nat.ltb_spec (length (buf q)) (cap q)) as [Hlt|Hge].
      * destruct (IH {| mu := mu s; monitor := monitor s;
                        ctx_done := ctx_done s;
                        chans := <[ch mon :=
                          {| buf := buf q ++ [{| Event := Event ev;
                                                 Address := Address ev;
                                                 Value := Value ev |}];
                             cap := cap q; closed := false |}]> (chans s) |}
                     {| buf := buf q ++ [{| Event := Event ev;
                                            Address := Address ev;
                                            Value := Value ev |}];
                        cap := cap q; closed := false |})
          as (s' & H1 & H2 & H3 & H4); try assumption; try reflexivity.
        { cbn. apply lookup_insert_eq. }
        { cbn. rewrite length_app. cbn. lia. }
        exists s'. split; [exact H1|].
        split; [|split; [rewrite H3; cbn; congruence|rewrite H4; reflexivity]].
        rewrite H2. cbn [buf cap]. rewrite decide_True by exact I.
        destruct ev as [e a v]. cbn. now rewrite <- app_assoc.
      * destruct (IH s q) as (s' & H1 & H2 & H3 & H4); try assumption.
        exists s'. split; [exact H1|].
        split; [|split; [congruence|assumption]].
        rewrite H2. rewrite decide_True by exact I.
        rewrite !take_app_le by lia. reflexivity.
    + destruct (IH s q) as (s' & H1 & H2 & H3 & H4); try assumption.
      exists s'. split; [exact H1|].
      split; [|split; [congruence|assumption]].
      rewrite H2. now rewrite decide_False by (intros []).
Qed.

(** X12. When the socket's context is done, [runMonitor] closes the channel
    of an active monitor, keeping what is queued, and marks the monitor
    inactive; every later [emitEvent] returns without sending, so nothing
    is sent on the closed channel.  Until the context is done [runMonitor]
    waits. *)
Theorem runMonitor_exit_closes (s : socket) (mon : socketMonitor) (q : chan) :
  mu s = Unlocked -> monitor s = Some mon ->
  chans s !! ch mon = Some q -> closed q = false ->
  (ctx_done s = false -> runMonitor_exit s = Blocked) /\
  (ctx_done s = true ->
   exists s',
     runMonitor_exit s = Done tt s' /\
     chans s' = <[ch mon := {| buf := buf q; cap := cap q;
                               closed := true |}]> (chans s) /\
     monitor s' = Some {| endpoint := endpoint mon; events := events mon;
                          ch := ch mon; active := false |} /\
     mu s' = Unlocked /\
     forall event address value,
       emitEvent event address value s' = Done tt s').
Proof.
  intros Hmu Hm Hq Hc. destruct s as [m mo d cs]. cbn in *. subst.
  split; intros ->; [reflexivity|].
  unfold runMonitor_exit, bind, Lock, get_monitor, close_chan. cbn.
  rewrite Hq, Hc. cbn. eexists. split; [reflexivity|]. cbn.
  repeat split.
Qed.

(** X13. [StopMonitor] never returns nil: whenever it returns, it returns
    its error, on a socket that has no monitor and that it leaves as it
    was.  So a monitor, once installed, is not removed: after every call of
    [Monitor], [StopMonitor], [emitEvent], [GetMonitorChannel] or the exit
    of [runMonitor] that returns, the socket has a monitor with the same
    endpoint, mask and channel. *)
Theorem monitor_is_never_removed (s s' : socket) :
  (forall r, StopMonitor s = Done r s' ->
     r = Some (Errorf "no monitor active") /\ s' = s /\ monitor s = None) /\
  forall mon, monitor s = Some mon ->
    (forall ep mask r, Monitor ep mask s = Done r s' -> monitor s' = Some mon) /\
    (forall e a v, emitEvent e a v s = Done tt s' -> monitor s' = Some mon) /\
    (forall r, GetMonitorChannel s = Done r s' -> monitor s' = Some mon) /\
    (runMonitor_exit s = Done tt s' ->
     exists mon', monitor s' = Some mon' /\ endpoint mon' = endpoint mon /\
                  events mon' = events mon /\ ch mon' = ch mon).
Proof.
  split.
  - intros r H. destruct s as [[| |n] [mon|] d cs]; try discriminate H.
    cbn in H. injection H as <- <-. auto.
  - intros mon Hm. split; [|split; [|split]].
    + intros ep mask r H.
      destruct s as [[| |n] mo d cs]; try discriminate H.
      cbn in Hm. subst mo. cbn in H. now injection H as _ <-.
    + intros e a v H. apply emitEvent_appends in H
        as [->|(mon' & q & _ & _ & _ & _ & _ & _ & Hmo & _)]; congruence.
    + intros r H. destruct s as [[| |n] mo d cs]; try discriminate H;
        cbn in Hm; subst mo; cbn in H; now injection H as _ <-.
    + intros H. unfold runMonitor_exit in H.
      destruct (ctx_done s); [|discriminate].
      unfold bind, Lock in H. destruct (mu s); try discriminate. cbn in H.
      rewrite Hm in H. unfold close_chan in H. cbn in H.
      destruct (chans s !! ch mon) as [q|]; [|discriminate].
      destruct (closed q); [discriminate|]. cbn in H.
      injection H as <-. cbn. eauto.
Qed.

(** X14. No method keeps the mutex: whenever [Monitor], [StopMonitor],
    [emitEvent], [GetMonitorChannel] or the exit of [runMonitor] returns,
    the mutex is in the state in which the call found it. *)
Theorem methods_release_the_mutex (s s' : socket) :
  (forall ep mask r, Monitor ep mask s = Done r s' -> mu s' = mu s) /\
  (forall r, StopMonitor s = Done r s' -> mu s' = mu s) /\
  (forall e a v, emitEvent e a v s = Done tt s' -> mu s' = mu s) /\
  (forall r, GetMonitorChannel s = Done r s' -> mu s' = mu s) /\
  (runMonitor_exit s = Done tt s' -> mu s' = mu s).
Proof.
  split; [|split; [|split; [|split]]].
  - intros ep mask r H.
    destruct s as [[| |n] [mon|] d cs]; try discriminate H;
      cbn in H; now injection H as _ <-.
  - intros r H. destruct s as [[| |n] [mon|] d cs]; try discriminate H.
    cbn in H. now injection H as _ <-.
  - intros e a v H. apply emitEvent_appends in H
      as [->|(mon' & q & _ & _ & _ & _ & _ & Hmu & _)]; congruence.
  - intros r H. destruct s as [[| |n] mo d cs]; try discriminate H;
      cbn in H; now injection H as _ <-.
  - intros H. unfold runMonitor_exit in H.
    destruct (ctx_done s); [|discriminate].
    unfold bind, Lock in H. destruct (mu s) eqn:Emu; try discriminate.
    cbn in H. destruct (monitor s) as [mon|].
    + unfold close_chan in H. cbn in H.
      destruct (chans s !! ch mon) as [q|]; [|discriminate].
      destruct (closed q); [discriminate|]. cbn in H.
      now injection H as <-.
    + cbn in H. now injection H as <-.
Qed.

End MonitorMore.

(** ** The functional options *)

(** X15. [WithSecurity] never leaves the security of a socket nil: nil is
    replaced by [nullSecurity].  [WithLogger] changes nothing.  Every other
    option writes its own field and no other, the dialer options included:
    options for different fields can be applied in either order, and of two
    options for one field the later one decides. *)
Theorem options_write_one_field (c1 c2 : Options.call) (s : Options.socket) :
  (forall sc, Options.sec (Options.WithSecurity sc s) <> None /\
              Options.sec (Options.WithSecurity None s)
              = Some Options.nullSecurity) /\
  (Options.field_of c1 = 0%nat -> Options.option_of c1 s = s) /\
  (Options.field_of c1 <> Options.field_of c2 ->
   Options.option_of c1 (Options.option_of c2 s)
   = Options.option_of c2 (Options.option_of c1 s)) /\
  (Options.field_of c1 = Options.field_of c2 ->
   Options.option_of c2 (Options.option_of c1 s) = Options.option_of c2 s) /\
  Options.retry (Options.WithDialerRetry 5 s) = 5%Z /\
  Options.maxRetries (Options.WithDialerMaxRetries 5 s) = 5%Z /\
  Options.autoReconnect (Options.WithAutomaticReconnect true s) = true.
Proof.
  split; [|split; [|split; [|split]]].
  - intros sc. split; [|reflexivity]. destruct sc; discriminate.
  - destruct c1; try discriminate. reflexivity.
  - destruct c1, c2; cbn; intros H; try reflexivity; congruence.
  - destruct c1, c2; cbn; intros H; try reflexivity; discriminate.
  - repeat split.
Qed.

(** ** The flow of messages through the proxies *)

Section ProxyFlow.

Import Proxy3.

Lemma flows_init : flows init.
Proof.
  intros d. exists []. destruct d; cbn; repeat split; (congruence || lia).
Qed.

Lemma step_flows (capture : bool) (l : label) (s s' : state) :
  step capture l s = Some s' -> flows s -> flows s'.
Proof.
  intros Hstep Hinv d. specialize (Hinv d).
  destruct Hinv as (dropped & H1 & H2 & H3 & H4).
  destruct s as [[rF wF qF cF] [rB wB qB cB] ec dn mn tr].
  unfold queue_cap in *.
  destruct l as [d0|d0 m|d0 e|d0|d0|d0|d0|d0|d0|d0|d0 e|d0|d0|];
    try destruct d0; destruct d; try destruct dn; destruct capture;
    cbn in Hstep, H1, H2, H3, H4.
  all: repeat match type of Hstep with
       | match ?x with _ => _ end = Some _ =>
           destruct x eqn:?; try discriminate Hstep
       | (if ?x then _ else _) = Some _ =>
           destruct x eqn:?; try discriminate Hstep
       end.
  all: injection Hstep as <-; unfold flow_inv, queue_cap; cbn.
  all: rewrite ?app_nil_r, ?received_snoc, ?forwarded_snoc; cbn.
  all: try (assert (dropped = []) as ->
              by (destruct dropped; [reflexivity|];
                  discriminate (H2 ltac:(discriminate)))).
  all: try match goal with
           | H : (_ && _) = true |- _ =>
               apply andb_prop in H as [_ H];
               first [apply Nat.ltb_lt in H|apply Nat.leb_le in H]
           end.
  all: generalize dependent (received F2B tr);
    generalize dependent (received B2F tr);
    generalize dependent (forwarded F2B tr);
    generalize dependent (forwarded B2F tr); intros; subst.
  all: first
    [ exists dropped; split;
      [rewrite ?app_nil_r, <- ?app_assoc; reflexivity|];
      repeat split; first [assumption|cbn in *; rewrite ?length_app; cbn; lia]
    | exists []; split;
      [rewrite ?app_nil_r, <- ?app_assoc; reflexivity|];
      repeat split;
      first [congruence|cbn in *; rewrite ?length_app; cbn; lia]
    | eexists [_]; split;
      [rewrite ?app_nil_r, <- ?app_assoc; reflexivity|];
      repeat split; first [reflexivity|cbn in *; lia]
    ].
Qed.

Lemma run_flows (capture : bool) (ls : list label) (s s' : state) :
  run capture ls s = Some s' -> flows s -> flows s'.
Proof.
  revert s. induction ls as [|l ls IH]; intros s; cbn.
  - now intros [= <-].
  - destruct (step capture l s) as [s1|] eqn:E; [|discriminate].
    intros Hrun Hinv. apply (IH s1 Hrun).
    now apply (step_flows capture l s).
Qed.

(** X16. In every run of the three-socket proxy, with or without capture,
    the messages forwarded in a direction are the first of those received
    in it, in the same order: none is forwarded twice, out of order or
    without having been received.  At most 102 received messages are not
    yet forwarded, and the channel between the two goroutines never holds
    more than its hundred. *)
Theorem forwarding_keeps_order (capture : bool) (ls : list label)
    (s : state) (d : dir) :
  run capture ls init = Some s ->
  exists rest : list Msg,
    received d (trace s) = forwarded d (trace s) ++ rest /\
    (length rest <= 102)%nat /\
    (length (queue (lane_of d s)) <= 100)%nat.
Proof.
  intros Hrun.
  destruct (run_flows capture ls init s Hrun flows_init d)
    as (dropped & H1 & H2 & H3 & H4).
  eexists. split; [exact H1|]. split; [|exact H4].
  unfold queue_cap in H4. rewrite !length_app.
  unfold at_send, at_put, at_capture.
  destruct (wpc (lane_of d s)); destruct (rpc (lane_of d s)) eqn:Er; cbn;
    try lia.
  all: destruct dropped as [|x dropped]; cbn in *; try lia.
  all: discriminate (H2 ltac:(discriminate)).
Qed.

End ProxyFlow.

Section Proxy2Flow.

Import Proxy2.

Ltac step_cases Hstep :=
  repeat match type of Hstep with
         | match ?x with _ => _ end = Some _ =>
             destruct x eqn:?; try discriminate Hstep
         | (if ?x then _ else _) = Some _ =>
             destruct x eqn:?; try discriminate Hstep
         end.

Lemma step_flows2 (l : label) (s s' : state) :
  step l s = Some s' -> flows2 s -> flows2 s'.
Proof.
  intros Hstep Hinv d. specialize (Hinv d).
  destruct s as [pF pB ec mn tr].
  destruct l as [d0 m|d0 e|d0|d0 e|d0|]; try destruct d0; destruct d;
    cbn in Hstep, Hinv.
  all: step_cases Hstep.
  all: injection Hstep as <-; cbn.
  all: rewrite ?received_snoc, ?forwarded_snoc; cbn; rewrite ?app_nil_r.
  all: rewrite ?app_nil_r in Hinv; try assumption.
  all: rewrite Hinv, <- ?app_assoc; reflexivity.
Qed.

Lemma run_flows2 (ls : list label) (s s' : state) :
  run ls s = Some s' -> flows2 s -> flows2 s'.
Proof.
  revert s. induction ls as [|l ls IH]; intros s; cbn.
  - now intros [= <-].
  - destruct (step l s) as [s1|] eqn:E; [|discriminate].
    intros Hrun Hinv. apply (IH s1 Hrun).
    now apply (step_flows2 l s).
Qed.


Lemma step_errors_produced2 (l : label) (s s' : state) :
  step l s = Some s' -> errors_produced2 s -> errors_produced2 s'.
Proof.
  intros Hstep [H1 H2].
  pose proof (H2 F2B) as HF. pose proof (H2 B2F) as HB. clear H2.
  destruct s as [pF pB ec mn tr]. cbn in H1, HF, HB.
  destruct l as [d0 m|d0 e|d0|d0 e|d0|]; try destruct d0; cbn in Hstep.
  all: step_cases Hstep.
  all: injection Hstep as <-; unfold errors_produced2; cbn.
  all: rewrite ?reported_snoc, ?produced_snoc; cbn; rewrite ?app_nil_r.
  all: split;
    [intros e'; rewrite ?in_app_iff; cbn; intros Hin;
     repeat match goal with
            | H : _ \/ _ |- _ => destruct H
            | H : False |- _ => destruct H
            end; subst; eauto
    |intros [] e'; cbn; rewrite ?in_app_iff; cbn; intros Hin;
     try discriminate Hin; try (injection Hin as <-); eauto].
Qed.

Lemma run_errors_produced2 (ls : list label) (s s' : state) :
  run ls s = Some s' -> errors_produced2 s -> errors_produced2 s'.
Proof.
  revert s. induction ls as [|l ls IH]; intros s; cbn.
  - now intros [= <-].
  - destruct (step l s) as [s1|] eqn:E; [|discriminate].
    intros Hrun Hinv. apply (IH s1 Hrun).
    now apply (step_errors_produced2 l s).
Qed.

Lemma step_reports_inv (l : label) (s s' : state) :
  step l s = Some s' -> reports_inv s -> reports_inv s'.
Proof.
  intros Hstep [H1 H2].
  destruct s as [pF pB ec mn tr]. cbn in H1, H2.
  destruct l as [d0 m|d0 e|d0|d0 e|d0|]; try destruct d0; cbn in Hstep.
  all: step_cases Hstep.
  all: injection Hstep as <-; unfold reports_inv; cbn.
  all: rewrite ?reported_snoc; cbn; rewrite ?app_nil_r, ?length_app; cbn.
  all: cbn in H1, H2; split; lia.
Qed.

Lemma run_reports_inv (ls : list label) (s s' : state) :
  run ls s = Some s' -> reports_inv s -> reports_inv s'.
Proof.
  revert s. induction ls as [|l ls IH]; intros s; cbn.
  - now intros [= <-].
  - destruct (step l s) as [s1|] eqn:E; [|discriminate].
    intros Hrun Hinv. apply (IH s1 Hrun).
    now apply (step_reports_inv l s).
Qed.

(** X20. In the two-socket proxy a loop whose [Recv] or [Send] has failed
    is never held up by the error channel: its two slots always have room
    for the report, also after [Proxy] has returned, so the loop reports
    and returns. *)
Theorem report_never_blocks (ls : list label) (s : state) (d : dir)
    (e : error) :
  run ls init = Some s -> loop_of d s = PErr e ->
  exists s',
    step (LReport d) s = Some s' /\ loop_of d s' = PExit /\
    reported (trace s') = reported (trace s) ++ [e].
Proof.
  intros Hrun Hd.
  assert (H : reports_inv s).
  { apply (run_reports_inv ls init s Hrun). split; vm_compute; lia. }
  destruct H as [H1 H2].
  assert (Hl : (length (errChan s) < 2)%nat).
  { destruct d; cbn in Hd; rewrite Hd in H1; cbn in H1;
      [destruct (loopB s)|destruct (loopF s)]; cbn in H1; lia. }
  unfold step. rewrite Hd. unfold errChan_cap.
  destruct (Nat.ltb_spec (length (errChan s)) 2) as [_|]; [|lia].
  eexists. split; [reflexivity|]. split.
  - now destruct d.
  - destruct d; cbn; now rewrite reported_snoc.
Qed.

End Proxy2Flow.

Section ProxyErrors.

Import Proxy3.

Ltac step_cases Hstep :=
  repeat match type of Hstep with
         | match ?x with _ => _ end = Some _ =>
             destruct x eqn:?; try discriminate Hstep
         | (if ?x then _ else _) = Some _ =>
             destruct x eqn:?; try discriminate Hstep
         end.

Lemma step_errors_produced (capture : bool) (l : label) (s s' : state) :
  step capture l s = Some s' -> errors_produced s -> errors_produced s'.
Proof.
  intros Hstep [H1 H2].
  assert (HFr : forall e, rpc (laneF s) = RErr e -> In e (produced (trace s)))
    by (intros e; apply (H2 F2B e)).
  assert (HFw : forall e, wpc (laneF s) = WErr e -> In e (produced (trace s)))
    by (intros e; apply (H2 F2B e)).
  assert (HBr : forall e, rpc (laneB s) = RErr e -> In e (produced (trace s)))
    by (intros e; apply (H2 B2F e)).
  assert (HBw : forall e, wpc (laneB s) = WErr e -> In e (produced (trace s)))
    by (intros e; apply (H2 B2F e)).
  clear H2.
  destruct s as [[rF wF qF cF] [rB wB qB cB] ec dn mn tr].
  cbn in H1, HFr, HFw, HBr, HBw.
  destruct l as [d0|d0 m|d0 e|d0|d0|d0|d0|d0|d0|d0|d0 e|d0|d0|];
    try destruct d0; destruct capture; destruct dn; cbn in Hstep.
  all: step_cases Hstep.
  all: injection Hstep as <-; unfold errors_produced; cbn.
  all: rewrite ?app_nil_r, ?reported_snoc, ?produced_snoc; cbn;
    rewrite ?app_nil_r.
  all: split;
    [intros e'; rewrite ?in_app_iff; cbn; intros Hin;
     repeat match goal with
            | H : _ \/ _ |- _ => destruct H
            | H : False |- _ => destruct H
            end; subst
    |intros [] e'; cbn; rewrite ?in_app_iff; cbn;
     (split; intros Hin; try discriminate Hin; try (injection Hin as <-);
      subst)].
  all: first [solve [eauto]|solve [left; eauto]
             |solve [right; left; reflexivity]].
Qed.

Lemma run_errors_produced (capture : bool) (ls : list label) (s s' : state) :
  run capture ls s = Some s' -> errors_produced s -> errors_produced s'.
Proof.
  revert s. induction ls as [|l ls IH]; intros s; cbn.
  - now intros [= <-].
  - destruct (step capture l s) as [s1|] eqn:E; [|discriminate].
    intros Hrun Hinv. apply (IH s1 Hrun).
    now apply (step_errors_produced capture l s).
Qed.

End ProxyErrors.


Section CaptureObserves.

Import Proxy3.

Ltac step_cases Hstep :=
  repeat match type of Hstep with
         | match ?x with _ => _ end = Some _ =>
             destruct x eqn:?; try discriminate Hstep
         | (if ?x then _ else _) = Some _ =>
             destruct x eqn:?; try discriminate Hstep
         end.

Lemma without_capture_snoc (tr : list event) (ev : event) :
  without_capture (tr ++ [ev])
  = without_capture tr ++ (if is_capture ev then [] else [ev]).
Proof.
  unfold without_capture. rewrite List.filter_app. cbn.
  now destruct (is_capture ev).
Qed.

Lemma step_same_but_capture (l : label) (s1 s2 : state) :
  same_but_capture s1 s2 ->
  match step true l s1, step false l s2 with
  | Some s1', Some s2' => same_but_capture s1' s2'
  | None, None => True
  | _, _ => False
  end.
Proof.
  intros (HF & HB & He & Hd & Hm & Ht).
  destruct s1 as [[rF wF qF cF] [rB wB qB cB] ec dn mn tr].
  destruct s2 as [lF2 lB2 ec2 dn2 mn2 tr2]. cbn in *. subst.
  destruct l as [d0|d0 m|d0 e|d0|d0|d0|d0|d0|d0|d0|d0 e|d0|d0|];
    try destruct d0; cbn.
  all: repeat match goal with
       | |- context [match ?x with _ => _ end] =>
           is_var x; destruct x
       end; cbn; try exact I.
  all: repeat match goal with
       | |- context [if ?x then _ else _] => destruct x eqn:?
       end; cbn; try exact I.
  all: unfold same_but_capture; cbn;
    rewrite ?app_nil_r, ?without_capture_snoc; cbn;
    rewrite ?app_nil_r; repeat split.
Qed.

(** X18. The capture socket only observes.  A run of the proxy with a
    capture socket and the same run without one take the same steps and
    reach the same state of goroutines, channels and return value; their
    traces differ by the [capture.Send] events alone, so the same messages
    are received and forwarded and the same errors reported. *)
Theorem capture_only_observes (ls : list label) :
  match run true ls init, run false ls init with
  | Some s, Some s' =>
      same_but_capture s s' /\
      (forall d, received d (trace s') = received d (trace s) /\
                 forwarded d (trace s') = forwarded d (trace s) /\
                 captured d (trace s') = []) /\
      reported (trace s') = reported (trace s)
  | None, None => True
  | _, _ => False
  end.
Proof.
  assert (G : forall s1 s2, same_but_capture s1 s2 ->
    match run true ls s1, run false ls s2 with
    | Some s, Some s' => same_but_capture s s'
    | None, None => True
    | _, _ => False
    end).
  { induction ls as [|l ls IH]; intros s1 s2 H; [exact H|].
    cbn [run]. pose proof (step_same_but_capture l s1 s2 H) as Hs.
    destruct (step true l s1) as [s1'|], (step false l s2) as [s2'|];
      try contradiction; [|exact I].
    now apply IH. }
  specialize (G init init).
  destruct (run true ls init) as [s|], (run false ls init) as [s'|];
    try (apply G; repeat split); [].
  assert (H : same_but_capture s s') by (apply G; repeat split).
  split; [exact H|].
  destruct H as (_ & _ & _ & _ & _ & Ht). rewrite Ht.
  assert (E : forall (A : Type) (f : event -> option A),
    (forall ev, is_capture ev = true -> f ev = None) ->
    forall tr, omap f (without_capture tr) = omap f tr).
  { intros A f Hf tr. unfold without_capture.
    induction tr as [|ev tr IH]; [reflexivity|].
    cbn [List.filter]. destruct (is_capture ev) eqn:Ec; cbn [negb].
    - rewrite IH. change (omap f (ev :: tr))
        with (match f ev with Some y => y :: omap f tr | None => omap f tr end).
      now rewrite (Hf ev Ec).
    - change (omap f (ev :: List.filter (fun ev => negb (is_capture ev)) tr))
        with (match f ev with
              | Some y => y :: omap f (List.filter (fun ev => negb (is_capture ev)) tr)
              | None => omap f (List.filter (fun ev => negb (is_capture ev)) tr)
              end).
      rewrite IH. reflexivity. }
  assert (C : forall d tr, captured d (without_capture tr) = []).
  { intros d tr. unfold captured, without_capture.
    induction tr as [|ev tr IH]; [reflexivity|].
    destruct ev; cbn [List.filter is_capture negb]; try exact IH;
      change (omap (capture_of d) (?e :: ?l))
        with (match capture_of d e with
              | Some y => y :: omap (capture_of d) l
              | None => omap (capture_of d) l
              end); cbn [capture_of]; exact IH. }
  split.
  - intros d. split; [|split].
    + apply E. now intros [].
    + apply E. now intros [].
    + apply C.
  - apply E. now intros [].
Qed.

End CaptureObserves.

(** ** networking/transport.go *)

Section TransportFacts.

Import Transport.
Local Open Scope Z_scope.

Lemma default_delay : wrap64 (100 * Millisecond) = 100000000.
Proof. reflexivity. Qed.

Lemma with_defaults_fields (cfg : Config) :
  NodeID (with_defaults cfg) = NodeID cfg /\
  BasePort (with_defaults cfg) = BasePort cfg /\
  BindAddress (with_defaults cfg)
  = (if String.eqb (BindAddress cfg) "" then "127.0.0.1"
     else BindAddress cfg) /\
  MaxRetries (with_defaults cfg)
  = (if MaxRetries cfg =? 0 then 3 else MaxRetries cfg) /\
  RetryDelay (with_defaults cfg)
  = (if RetryDelay cfg =? 0 then 100000000 else RetryDelay cfg) /\
  BufferSize (with_defaults cfg)
  = (if BufferSize cfg =? 0 then 1000 else BufferSize cfg).
Proof.
  destruct cfg as [n p a m r b]. unfold with_defaults. cbv zeta.
  cbn [NodeID BasePort BindAddress MaxRetries RetryDelay BufferSize].
  destruct (String.eqb a "");
    cbn [NodeID BasePort BindAddress MaxRetries RetryDelay BufferSize];
    destruct (m =? 0);
    cbn [NodeID BasePort BindAddress MaxRetries RetryDelay BufferSize];
    destruct (r =? 0);
    cbn [NodeID BasePort BindAddress MaxRetries RetryDelay BufferSize];
    destruct (b =? 0);
    cbn [NodeID BasePort BindAddress MaxRetries RetryDelay BufferSize];
    rewrite ?default_delay; repeat split.
Qed.

Lemma with_defaults_fixed (c : Config) :
  BindAddress c <> "" -> MaxRetries c <> 0 -> RetryDelay c <> 0 ->
  BufferSize c <> 0 -> with_defaults c = c.
Proof.
  intros Ha Hm Hr Hb. unfold with_defaults. cbv zeta.
  rewrite (proj2 (String.eqb_neq _ _) Ha).
  rewrite (proj2 (Z.eqb_neq _ _) Hm).
  rewrite (proj2 (Z.eqb_neq _ _) Hr).
  now rewrite (proj2 (Z.eqb_neq _ _) Hb).
Qed.

(** X21. [New] fills in the defaults of [DefaultConfig] for an empty bind
    address and for a zero retry count, retry delay or buffer size, and
    leaves every other value as given, a negative retry count included;
    the node id and the base port have no default.  Applying the defaults
    twice changes nothing more, and [DefaultConfig] is kept as it is. *)
Theorem New_applies_defaults (cfg : Config) :
  let c := config (New cfg) in
  nodeID (New cfg) = NodeID cfg /\
  NodeID c = NodeID cfg /\ BasePort c = BasePort cfg /\
  BindAddress c = (if String.eqb (BindAddress cfg) "" then "127.0.0.1"
                   else BindAddress cfg) /\
  MaxRetries c = (if MaxRetries cfg =? 0 then 3 else MaxRetries cfg) /\
  RetryDelay c = (if RetryDelay cfg =? 0 then 100000000
                  else RetryDelay cfg) /\
  BufferSize c = (if BufferSize cfg =? 0 then 1000 else BufferSize cfg) /\
  BindAddress c <> "" /\ MaxRetries c <> 0 /\ RetryDelay c <> 0 /\
  BufferSize c <> 0 /\
  with_defaults c = c /\
  config (New (DefaultConfig (NodeID cfg) (BasePort cfg)))
  = DefaultConfig (NodeID cfg) (BasePort cfg).
Proof.
  cbv zeta. unfold New. cbn [config nodeID].
  destruct (with_defaults_fields cfg) as (Hn & Hp & Ha & Hm & Hr & Hb).
  assert (Ha' : BindAddress (with_defaults cfg) <> "").
  { rewrite Ha. destruct (String.eqb_spec (BindAddress cfg) "");
      [discriminate|assumption]. }
  assert (Hm' : MaxRetries (with_defaults cfg) <> 0).
  { rewrite Hm. destruct (Z.eqb_spec (MaxRetries cfg) 0);
      [discriminate|assumption]. }
  assert (Hr' : RetryDelay (with_defaults cfg) <> 0).
  { rewrite Hr. destruct (Z.eqb_spec (RetryDelay cfg) 0);
      [discriminate|assumption]. }
  assert (Hb' : BufferSize (with_defaults cfg) <> 0).
  { rewrite Hb. destruct (Z.eqb_spec (BufferSize cfg) 0);
      [discriminate|assumption]. }
  repeat (split; [assumption|]).
  split; [now apply with_defaults_fixed|].
  apply with_defaults_fixed; unfold DefaultConfig;
    cbn [BindAddress MaxRetries RetryDelay BufferSize];
    rewrite ?default_delay; discriminate.
Qed.

Lemma existsb_eqb_In (p : string) (ps : list string) :
  existsb (String.eqb p) ps = true <-> In p ps.
Proof.
  rewrite existsb_exists. split.
  - intros (x & Hx & E). apply String.eqb_eq in E. now subst.
  - intros H. exists p. split; [exact H|apply String.eqb_refl].
Qed.

Lemma existsb_eqb_not_In (p : string) (ps : list string) :
  ~ In p ps -> existsb (String.eqb p) ps = false.
Proof.
  intros H. destruct (existsb (String.eqb p) ps) eqn:E; [|reflexivity].
  apply existsb_eqb_In in E. contradiction.
Qed.

(** X22. [ConnectPeerWithAddress] for a peer that is not connected, when
    both [Dial] succeed, dials the sub socket to the peer's port, creates a
    dealer with the node's identity and dials it to the port plus 1000,
    records the dealer and appends the peer to the list.  For a peer that
    is in the list it returns nil and does nothing at all, whatever the
    address and port. *)
Theorem ConnectPeer_connects_once (t : T) (p a : string) (port : Z) :
  ~ In p (peers t) ->
  exists t',
    ConnectPeerWithAddress p a port None None t = (None, t') /\
    peers t' = peers t ++ [p] /\
    dealers t' = <[p := created t]> (dealers t) /\
    calls t' = calls t ++ [SubDial (endpoint a port);
                           NewDealer (created t) (nodeID t);
                           DealerDial (created t)
                             (endpoint a (wrap64 (port + 1000)))] /\
    GetPeers t' = peers t ++ [p] /\
    forall a' port' sd dd,
      ConnectPeerWithAddress p a' port' sd dd t' = (None, t').
Proof.
  intros Hn. unfold ConnectPeerWithAddress.
  rewrite existsb_eqb_not_In by assumption. cbn.
  eexists. split; [reflexivity|]. cbn.
  split; [reflexivity|]. split; [reflexivity|].
  split; [now rewrite <- !app_assoc|].
  split; [unfold GetPeers; cbn; apply firstn_all|].
  intros a' port' sd dd.
  assert (E : existsb (String.eqb p) (peers t ++ [p]) = true).
  { apply existsb_eqb_In. apply in_or_app. right. now left. }
  now rewrite E.
Qed.

Lemma ConnectPeer_result (p a : string) (port : Z) (sd dd : option error)
    (t : T) :
  let r := snd (ConnectPeerWithAddress p a port sd dd t) in
  (peers r = peers t /\ dealers r = dealers t) \/
  (~ In p (peers t) /\ peers r = peers t ++ [p] /\
   dealers r = <[p := created t]> (dealers t)).
Proof.
  cbv zeta. unfold ConnectPeerWithAddress.
  destruct (existsb (String.eqb p) (peers t)) eqn:E; [left; now split|].
  destruct sd as [e|]; [left; now split|].
  cbn. destruct dd as [e|]; [left; now split|].
  right. cbn. split; [|now split].
  intros H. apply existsb_eqb_In in H. congruence.
Qed.

Lemma ConnectPeer_peers_ok (p a : string) (port : Z)
    (sd dd : option error) (t : T) :
  peers_ok t -> peers_ok (snd (ConnectPeerWithAddress p a port sd dd t)).
Proof.
  intros [Hnd Hiff].
  destruct (ConnectPeer_result p a port sd dd t)
    as [[Hp Hd]|(Hn & Hp & Hd)]; unfold peers_ok; rewrite Hp, Hd.
  - now split.
  - split.
    + apply NoDup_app. split; [exact Hnd|]. split.
      * intros x Hx Hx'. apply list_elem_of_In in Hx.
        apply list_elem_of_singleton in Hx'. congruence.
      * apply NoDup_singleton.
    + intros q. split.
      * intros H. apply in_app_or in H as [H|[<-|[]]].
        -- destruct (decide (p = q)) as [<-|Hne]; [contradiction|].
           rewrite lookup_insert_ne by assumption. now apply Hiff.
        -- rewrite lookup_insert_eq. eauto.
      * intros H. apply in_or_app.
        destruct (decide (p = q)) as [<-|Hne]; [right; now left|].
        rewrite lookup_insert_ne in H by assumption. left. now apply Hiff.
Qed.

Lemma DisconnectPeer_peers_ok (p : string) (t t' : T) :
  peers_ok t -> DisconnectPeer p t = Returned t' -> peers_ok t'.
Proof.
  intros [Hnd Hiff]. unfold DisconnectPeer.
  assert (G : forall t0, peers t0 = peers t ->
            dealers t0 = delete p (dealers t) ->
            peers_ok (set_peers (dealers t0)
                        (List.filter (fun q => negb (String.eqb q p))
                           (peers t0)) t0)).
  { intros t0 Ep Ed. split; cbn; rewrite Ep.
    - apply NoDup_ListNoDup. apply List.NoDup_filter.
      now apply NoDup_ListNoDup.
    - intros q. rewrite List.filter_In, Ed, Hiff.
      destruct (String.eqb_spec q p) as [->|Hne]; cbn.
      + rewrite lookup_delete_eq. split; [intros [_ [=]]|intros [x [=]]].
      + rewrite lookup_delete_ne by congruence. tauto. }
  destruct (dealers t !! p) as [d|] eqn:Ed.
  - match goal with
    | |- (if ?c then _ else _) = _ -> _ => destruct c; [discriminate|]
    end.
    intros [= <-].
    now apply (G (set_peers (delete p (dealers t)) (peers t)
                    (do_call (DealerClose d) t))).
  - destruct (Z.of_nat (length (peers t)) - 1 <? 0); [discriminate|].
    intros [= <-]. apply (G t); [reflexivity|].
    symmetry. now apply delete_id.
Qed.


Lemma DisconnectPeer_empty (t : T) (p : string) :
  peers t = [] -> dealers t !! p = None -> DisconnectPeer p t = Panicked t.
Proof. intros Hp Hd. unfold DisconnectPeer. now rewrite Hd, Hp. Qed.

Lemma DisconnectPeer_nonempty (t : T) (p : string) :
  peers t <> [] ->
  exists t',
    DisconnectPeer p t = Returned t' /\
    peers t' = List.filter (fun q => negb (String.eqb q p)) (peers t) /\
    dealers t' = delete p (dealers t) /\
    calls t' = calls t ++ match dealers t !! p with
                          | Some d => [DealerClose d]
                          | None => []
                          end.
Proof.
  intros Hp. unfold DisconnectPeer.
  assert (L : (Z.of_nat (length (peers t)) - 1 <? 0) = false).
  { apply Z.ltb_ge. destruct (peers t); [congruence|cbn; lia]. }
  destruct (dealers t !! p) as [d|] eqn:Ed.
  - change (peers (set_peers (delete p (dealers t)) (peers t)
                     (do_call (DealerClose d) t))) with (peers t).
    rewrite L. eexists. split; [reflexivity|]. repeat split.
  - rewrite L. eexists. split; [reflexivity|].
    split; [reflexivity|]. split; [|symmetry; apply app_nil_r].
    symmetry. now apply delete_id.
Qed.

(** X24. [DisconnectPeer] panics when the list of peers is empty, as it
    asks for a slice of capacity minus one: on a new transport, and when
    the last peer has just been disconnected.  With a peer in the list it
    returns: it closes and forgets the dealer of the named peer, if there
    is one, and keeps the other peers in their order. *)
Theorem DisconnectPeer_panics_without_peers (t : T) (p : string) :
  (peers t = [] -> dealers t !! p = None ->
   DisconnectPeer p t = Panicked t) /\
  (peers t <> [] ->
   exists t',
     DisconnectPeer p t = Returned t' /\
     peers t' = List.filter (fun q => negb (String.eqb q p)) (peers t) /\
     dealers t' = delete p (dealers t) /\
     calls t' = calls t ++ match dealers t !! p with
                           | Some d => [DealerClose d]
                           | None => []
                           end) /\
  (forall cfg, DisconnectPeer p (New cfg) = Panicked (New cfg)) /\
  (forall cfg a port,
     exists t',
       peer_ops [Connect p a port None None; Disconnect p; Disconnect p]
         (New cfg) = Panicked t').
Proof.
  split; [apply DisconnectPeer_empty|].
  split; [apply DisconnectPeer_nonempty|]. split.
  - intros cfg. now apply DisconnectPeer_empty.
  - intros cfg a port. cbn [peer_ops].
    destruct (ConnectPeer_result p a port None None (New cfg))
      as [[Hp Hd]|(_ & Hp & Hd)].
    + exfalso. revert Hp. unfold ConnectPeerWithAddress. cbn. discriminate.
    + set (t1 := snd (ConnectPeerWithAddress p a port None None (New cfg)))
        in *.
      destruct (DisconnectPeer_nonempty t1 p) as (t2 & E & Hp2 & Hd2 & _).
      { rewrite Hp. cbn. discriminate. }
      rewrite E. exists t2. rewrite DisconnectPeer_empty; [reflexivity| |].
      * rewrite Hp2, Hp. cbn. now rewrite String.eqb_refl.
      * rewrite Hd2. apply lookup_delete_eq.
Qed.

(** X25. When [sub.Dial] fails, [ConnectPeerWithAddress] returns the
    wrapped error having done nothing else.  When [dealer.Dial] fails, it
    returns the wrapped error and records nothing, but the sub socket stays
    dialled and the dealer it created is not closed; as the peer is not in
    the list, the next call dials the sub socket once more. *)
Theorem ConnectPeer_failures (t : T) (p a : string) (port : Z) (e : error) :
  ~ In p (peers t) ->
  (exists t1,
     ConnectPeerWithAddress p a port (Some e) None t
     = (Some (Wrapped ("failed to connect sub to " +:+ p +:+ " at "
                       +:+ endpoint a port) (Some e)), t1) /\
     peers t1 = peers t /\ dealers t1 = dealers t /\
     calls t1 = calls t ++ [SubDial (endpoint a port)]) /\
  (exists t2 t3,
     ConnectPeerWithAddress p a port None (Some e) t
     = (Some (Wrapped ("failed to connect dealer to " +:+ p +:+ " at "
                       +:+ endpoint a (wrap64 (port + 1000))) (Some e)), t2) /\
     peers t2 = peers t /\ dealers t2 = dealers t /\
     calls t2 = calls t ++ [SubDial (endpoint a port);
                            NewDealer (created t) (nodeID t);
                            DealerDial (created t)
                              (endpoint a (wrap64 (port + 1000)))] /\
     ConnectPeerWithAddress p a port None None t2 = (None, t3) /\
     calls t3 = calls t2 ++ [SubDial (endpoint a port);
                             NewDealer (S (created t)) (nodeID t);
                             DealerDial (S (created t))
                               (endpoint a (wrap64 (port + 1000)))]).
Proof.
  intros Hn. split.
  - unfold ConnectPeerWithAddress.
    rewrite existsb_eqb_not_In by assumption.
    eexists. split; [reflexivity|]. cbn. auto.
  - unfold ConnectPeerWithAddress at 1.
    rewrite existsb_eqb_not_In by assumption. cbn.
    eexists. eexists. split; [reflexivity|]. cbn.
    split; [reflexivity|]. split; [reflexivity|].
    split; [now rewrite <- !app_assoc|].
    unfold ConnectPeerWithAddress. cbn.
    rewrite existsb_eqb_not_In by assumption. cbn.
    split; [reflexivity|]. cbn. now rewrite <- !app_assoc.
Qed.

(** X26. A transport connects to the endpoints on which its peer listens:
    [Start] binds the pub socket to the base port and the router socket to
    the base port plus 1000 of the bind address, after subscribing the sub
    socket to everything, and [ConnectPeerWithAddress] with that address
    and port dials the sub socket to the first and the dealer to the
    second.  If binding the pub socket fails, [Start] returns before any
    other socket is used. *)
Theorem Start_and_ConnectPeer_agree (peer t : T) (p : string) (e : error) :
  ~ In p (peers t) ->
  let a := BindAddress (config peer) in
  let port := BasePort (config peer) in
  exists pubAddr routerAddr peer' t',
    Start None None peer = (None, peer') /\
    calls peer' = calls peer ++ [PubListen pubAddr;
                                 SubSetOption "SUBSCRIBE" "";
                                 RouterListen routerAddr] /\
    ConnectPeerWithAddress p a port None None t = (None, t') /\
    calls t' = calls t ++ [SubDial pubAddr;
                           NewDealer (created t) (nodeID t);
                           DealerDial (created t) routerAddr] /\
    snd (Start (Some e) None peer) = do_call (PubListen pubAddr) peer /\
    fst (Start (Some e) None peer) <> None /\
    fst (Start None (Some e) peer) <> None.
Proof.
  intros Hn a port.
  exists (endpoint a port), (endpoint a (wrap64 (port + 1000))).
  unfold ConnectPeerWithAddress.
  rewrite existsb_eqb_not_In by assumption.
  eexists. eexists. unfold Start. cbn.
  split; [reflexivity|]. cbn.
  split; [now rewrite <- !app_assoc|].
  split; [reflexivity|]. cbn.
  split; [now rewrite <- !app_assoc|].
  split; [reflexivity|]. split; discriminate.
Qed.

Lemma wrap64_small (z : Z) : - 2 ^ 63 <= z < 2 ^ 63 -> wrap64 z = z.
Proof. intros H. unfold wrap64. rewrite Z.mod_small; lia. Qed.

Lemma do_calls_snoc (cs : list call) (c : call) (t : T) :
  do_calls (cs ++ [c]) t = do_call c (do_calls cs t).
Proof. unfold do_calls. now rewrite fold_left_app. Qed.

Lemma do_calls_cons (cs : list call) (c : call) (t : T) :
  do_calls (c :: cs) t = do_calls cs (do_call c t).
Proof. reflexivity. Qed.

Lemma do_calls_fields (cs : list call) (t : T) :
  config (do_calls cs t) = config t /\ dealers (do_calls cs t) = dealers t /\
  nodeID (do_calls cs t) = nodeID t /\ peers (do_calls cs t) = peers t /\
  msgSent (do_calls cs t) = msgSent t /\
  calls (do_calls cs t) = calls t ++ cs.
Proof.
  revert t. induction cs as [|c cs IH]; intros t.
  - cbn. now rewrite app_nil_r.
  - rewrite do_calls_cons. destruct (IH (do_call c t)) as (H1&H2&H3&H4&H5&H6).
    rewrite H1, H2, H3, H4, H5, H6. cbn. now rewrite <- app_assoc.
Qed.

Lemma Send_unknown (p : string) (msg : Message) (a : attempt) (t : T) :
  dealers t !! p = None ->
  Send p msg a t = (Some (Plain ("no connection to peer " +:+ p)), msg, t).
Proof. intros H. unfold Send. now rewrite H. Qed.

Lemma retry_loop_past (once : Message -> attempt -> T -> option terror * Message * T)
    (env : Z -> attempt) (rounds : nat) (i : Z) (lastErr : option terror)
    (msg : Message) (t : T) :
  MaxRetries (config t) <= i ->
  retry_loop once env rounds i lastErr msg t
  = (Some (Rewrapped ("failed after " +:+ pretty (MaxRetries (config t))
                      +:+ " retries") lastErr), msg, t).
Proof.
  intros H. destruct rounds; cbn [retry_loop];
    destruct (Z.ltb_spec i (MaxRetries (config t))); (lia || reflexivity).
Qed.

Lemma seqZ_cons_from (i len : Z) :
  0 < len -> seqZ i len = i :: seqZ (i + 1) (len - 1).
Proof. intros H. now rewrite seqZ_cons by lia. Qed.

Lemma retry_unknown_from (p : string) (env : Z -> attempt) (n : nat) :
  forall (rounds : nat) (i : Z) (lastErr : option terror) (msg : Message)
         (t : T),
    dealers t !! p = None ->
    0 <= i -> MaxRetries (config t) < 2 ^ 63 ->
    i + Z.of_nat n = MaxRetries (config t) -> (n < rounds)%nat ->
    (0 < n)%nat ->
    retry_loop (Send p) env rounds i lastErr msg t
    = (Some (Rewrapped ("failed after " +:+ pretty (MaxRetries (config t))
                        +:+ " retries")
               (Some (Plain ("no connection to peer " +:+ p)))), msg,
       do_calls (map (fun j => Sleep (wrap64 (j * RetryDelay (config t))))
                   (seqZ (i + 1) (Z.of_nat n - 1))) t).
Proof.
  induction n as [|n IH]; intros rounds i lastErr msg t Hd Hi HN Hn Hr Hpos;
    [lia|].
  destruct rounds as [|rounds]; [lia|]. cbn [retry_loop].
  destruct (Z.ltb_spec i (MaxRetries (config t))) as [_|]; [|lia].
  rewrite Send_unknown by assumption.
  rewrite (wrap64_small (MaxRetries (config t) - 1)) by lia.
  rewrite (wrap64_small (i + 1)) by lia.
  destruct n as [|n].
  - destruct (Z.ltb_spec i (MaxRetries (config t) - 1)) as [|_]; [lia|].
    rewrite retry_loop_past by lia. reflexivity.
  - destruct (Z.ltb_spec i (MaxRetries (config t) - 1)) as [_|]; [|lia].
    rewrite IH; try (cbn; lia); try assumption.
    cbn [config do_call]. f_equal.
    rewrite (seqZ_cons_from (i + 1)) by lia.
    cbn [map]. rewrite do_calls_cons. repeat f_equal; lia.
Qed.

(** X27. [SendWithRetry] to a peer without a connection never reaches a
    socket, yet it goes through the whole loop: it sleeps the delay, twice
    the delay and so on between its [MaxRetries] attempts and returns
    "failed after ... retries" around "no connection to peer".  With a
    retry count that is not positive, which [New] keeps when negative,
    [SendWithRetry] and [BroadcastWithRetry] attempt nothing and return
    the error around a nil cause. *)
Theorem SendWithRetry_without_connection (t : T) (p : string)
    (msg : Message) (env : Z -> attempt) :
  (dealers t !! p = None ->
   0 < MaxRetries (config t) < 2 ^ 63 ->
   SendWithRetry p msg env t
   = (Some (Rewrapped ("failed after " +:+ pretty (MaxRetries (config t))
                       +:+ " retries")
              (Some (Plain ("no connection to peer " +:+ p)))), msg,
      do_calls (pauses (MaxRetries (config t)) (RetryDelay (config t))) t)) /\
  (MaxRetries (config t) <= 0 ->
   SendWithRetry p msg env t
   = (Some (Rewrapped ("failed after " +:+ pretty (MaxRetries (config t))
                       +:+ " retries") None), msg, t) /\
   BroadcastWithRetry msg env t
   = (Some (Rewrapped ("failed after " +:+ pretty (MaxRetries (config t))
                       +:+ " retries") None), msg, t)).
Proof.
  split.
  - intros Hd HN. unfold SendWithRetry, pauses.
    rewrite (retry_unknown_from p env (Z.to_nat (MaxRetries (config t))));
      try lia; try assumption.
    now rewrite Z2Nat.id by lia.
  - intros HN. split; apply retry_loop_past; lia.
Qed.

Lemma stamp_stamp (f1 f2 to : string) (n1 n2 : Z) (msg : Message) :
  stamp f2 to n2 (stamp f1 to n1 msg) = stamp f2 to n2 msg.
Proof. reflexivity. Qed.

Lemma broadcast_calls_ext (env : Z -> attempt) (t1 t : T) (m1 m : Message)
    (n : nat) (i : Z) :
  nodeID t1 = nodeID t -> config t1 = config t -> To m1 = To m ->
  (forall f to no, stamp f to no m1 = stamp f to no m) ->
  broadcast_calls env t1 m1 i n = broadcast_calls env t m i n.
Proof.
  intros Hn Hc Hto Hst. revert i.
  induction n as [|n IH]; intros i; cbn [broadcast_calls];
    unfold broadcast_at; rewrite Hn, Hto, Hst, ?Hc, ?IH; reflexivity.
Qed.

Lemma broadcast_succeeds_from (env : Z -> attempt) (n : nat) :
  forall (rounds : nat) (i : Z) (lastErr : option terror) (msg : Message)
         (t : T),
    0 <= i -> i + Z.of_nat n < MaxRetries (config t) ->
    MaxRetries (config t) < 2 ^ 63 -> (n < rounds)%nat ->
    (forall j, i <= j < i + Z.of_nat n ->
               marshal (env j) = None /\ socket_send (env j) <> None) ->
    marshal (env (i + Z.of_nat n)) = None ->
    socket_send (env (i + Z.of_nat n)) = None ->
    exists t',
      retry_loop Broadcast env rounds i lastErr msg t
      = (None, broadcast_at env t msg (i + Z.of_nat n), t') /\
      msgSent t' = (msgSent t + (Z.of_nat n + 1)) mod 2 ^ 64 /\
      calls t' = calls t ++ broadcast_calls env t msg i n /\
      msgReceived t' = msgReceived t /\ msgDropped t' = msgDropped t /\
      peers t' = peers t /\ dealers t' = dealers t.
Proof.
  induction n as [|n IH];
    intros rounds i lastErr msg t Hi Hk HN Hr Hfail Hm Hok.
  - destruct rounds as [|rounds]; [lia|]. cbn [retry_loop].
    replace (i + Z.of_nat 0) with i in * by lia.
    destruct (Z.ltb_spec i (MaxRetries (config t))) as [_|]; [|lia].
    unfold Broadcast. rewrite Hm, Hok. cbn [option_map].
    eexists. split; [reflexivity|]. cbn. repeat split.
  - destruct rounds as [|rounds]; [lia|]. cbn [retry_loop].
    destruct (Z.ltb_spec i (MaxRetries (config t))) as [_|]; [|lia].
    destruct (Hfail i ltac:(lia)) as [Hm0 Hs0].
    unfold Broadcast at 1. rewrite Hm0.
    destruct (socket_send (env i)) as [e|]; [|congruence].
    cbn [option_map]. cbn [config do_call set_counters].
    rewrite (wrap64_small (MaxRetries (config t) - 1)) by lia.
    rewrite (wrap64_small (i + 1)) by lia.
    destruct (Z.ltb_spec i (MaxRetries (config t) - 1)) as [_|]; [|lia].
    replace (i + Z.of_nat (S n)) with (i + 1 + Z.of_nat n) in * by lia.
    match goal with
    | |- exists t', retry_loop _ _ _ _ _ ?m ?t1 = _ /\ _ =>
        destruct (IH rounds (i + 1) (Some (OfSocket e)) m t1)
          as (t' & H1 & H2 & H3 & H4 & H5 & H6 & H7);
        [lia|cbn; lia|cbn; lia|lia
        |intros j Hj; apply Hfail; lia|exact Hm|exact Hok|]
    end.
    exists t'. rewrite H1, H2, H3, H4, H5, H6, H7.
    unfold broadcast_at at 1. cbn [nodeID To stamp do_call set_counters].
    split; [reflexivity|].
    split.
    { cbn [msgSent do_call set_counters]. unfold incr_uint64.
      rewrite Z.add_mod_idemp_l by lia. f_equal. lia. }
    split; [|now repeat split].
    cbn [calls do_call set_counters broadcast_calls].
    rewrite <- !app_assoc. cbn [app]. unfold broadcast_at.
    do 3 f_equal.
    apply broadcast_calls_ext; reflexivity.
Qed.

(** X28. [BroadcastWithRetry] stops at the first attempt whose [Send]
    succeeds.  When the attempts before the attempt [k] fail at the socket
    and the attempt [k] succeeds, it returns nil; it has sent the message
    [k + 1] times, each time stamped with the node and the time of the
    attempt, and slept once, twice, ... [k] times the delay in between;
    and [msgSent] has grown by [k + 1], the failed attempts included. *)
Theorem BroadcastWithRetry_first_success (t : T) (msg : Message)
    (env : Z -> attempt) (k : nat) :
  Z.of_nat k < MaxRetries (config t) < 2 ^ 63 ->
  (forall j, 0 <= j < Z.of_nat k ->
             marshal (env j) = None /\ socket_send (env j) <> None) ->
  marshal (env (Z.of_nat k)) = None ->
  socket_send (env (Z.of_nat k)) = None ->
  exists t',
    BroadcastWithRetry msg env t
    = (None, stamp (nodeID t) (To msg) (now (env (Z.of_nat k))) msg, t') /\
    msgSent t' = (msgSent t + (Z.of_nat k + 1)) mod 2 ^ 64 /\
    calls t' = calls t ++ broadcast_calls env t msg 0 k /\
    msgReceived t' = msgReceived t /\ msgDropped t' = msgDropped t.
Proof.
  intros HN Hfail Hm Hok. unfold BroadcastWithRetry.
  destruct (broadcast_succeeds_from env k
              (S (Z.to_nat (MaxRetries (config t)))) 0 None msg t)
    as (t' & H1 & H2 & H3 & H4 & H5 & _); try lia; try assumption.
  exists t'. rewrite H1. cbn [Z.add] in *. auto.
Qed.

(** X29. [processMessage] counts data that is no message as dropped and
    does nothing else with it; it ignores a broadcast of the node itself,
    without counting it; every other message, a direct message of the node
    to itself included, is counted as received, and the handler registered
    for its type, if there is one and it is not nil, is started with it.
    [msgSent] is never touched.  After [UnregisterHandler] no handler is
    started for the type, and [RegisterHandler] replaces the handler of a
    type. *)
Theorem processMessage_counts (t : T) (m : Message) (h h' : ref) :
  processMessage None t
  = set_counters (msgSent t) (msgReceived t) (incr_uint64 (msgDropped t)) t /\
  (From m = nodeID t -> To m = "" -> processMessage (Some m) t = t) /\
  (From m <> nodeID t \/ To m <> "" ->
   msgReceived (processMessage (Some m) t) = incr_uint64 (msgReceived t) /\
   msgDropped (processMessage (Some m) t) = msgDropped t /\
   msgSent (processMessage (Some m) t) = msgSent t /\
   calls (processMessage (Some m) t)
   = calls t ++ match handlers t !! Type_ m with
                | Some (Some handler) => [GoHandler handler m]
                | _ => []
                end /\
   calls (processMessage (Some m)
            (RegisterHandler (Type_ m) (Some h')
               (RegisterHandler (Type_ m) (Some h) t)))
   = calls t ++ [GoHandler h' m] /\
   calls (processMessage (Some m)
            (UnregisterHandler (Type_ m)
               (RegisterHandler (Type_ m) (Some h) t)))
   = calls t /\
   calls (processMessage (Some m) (RegisterHandler (Type_ m) None t))
   = calls t).
Proof.
  split; [reflexivity|]. split.
  - intros Hf Ht. unfold processMessage.
    now rewrite Hf, Ht, !String.eqb_refl.
  - intros H.
    assert (E : forall t0, nodeID t0 = nodeID t ->
      (String.eqb (From m) (nodeID t0) && String.eqb (To m) "") = false).
    { intros t0 ->. destruct H as [H|H];
        apply String.eqb_neq in H; rewrite H; [reflexivity|].
      apply andb_false_r. }
    unfold processMessage. rewrite !E by reflexivity.
    cbn [handlers set_counters RegisterHandler UnregisterHandler
         set_handlers].
    rewrite !lookup_insert_eq, lookup_delete_eq.
    destruct (handlers t !! Type_ m) as [[hd|]|]; cbn;
      rewrite ?app_nil_r; repeat split.
Qed.

End TransportFacts.

(** * Instances of the further properties *)

Section MonitorInstances.
Import Monitor.

Lemma emit_all_queue_witness :
  exists s',
    emit_all demo_events (demo_socket false) = Done tt s' /\
    queue_of (ch demo_monitor) s'
    = take (cap demo_chan)
        (buf demo_chan ++ filter (passes (events demo_monitor)) demo_events) /\
    monitor s' = monitor (demo_socket false) /\
    mu s' = mu (demo_socket false).
Proof.
  apply (emit_all_queue demo_events (demo_socket false) demo_monitor
           demo_chan).
  - discriminate.
  - reflexivity.
  - reflexivity.
  - vm_compute. reflexivity.
  - reflexivity.
  - cbn. lia.
Defined.

Lemma runMonitor_exit_closes_witness :
  (ctx_done (demo_socket true) = false ->
   runMonitor_exit (demo_socket true) = Blocked) /\
  (ctx_done (demo_socket true) = true ->
   exists s',
     runMonitor_exit (demo_socket true) = Done tt s' /\
     chans s' = <[ch demo_monitor :=
                   {| buf := buf demo_chan; cap := cap demo_chan;
                      closed := true |}]> (chans (demo_socket true)) /\
     monitor s' = Some {| endpoint := endpoint demo_monitor;
                          events := events demo_monitor;
                          ch := ch demo_monitor; active := false |} /\
     mu s' = Unlocked /\
     forall event address value,
       emitEvent event address value s' = Done tt s').
Proof.
  apply (runMonitor_exit_closes (demo_socket true) demo_monitor demo_chan).
  - reflexivity.
  - reflexivity.
  - vm_compute. reflexivity.
  - reflexivity.
Defined.

End MonitorInstances.

Section Proxy3Instances.
Import Proxy3.

Lemma forwarding_keeps_order_witness :
  exists rest : list Msg,
    received F2B (trace (reached3 true forward_once))
    = forwarded F2B (trace (reached3 true forward_once)) ++ rest /\
    (length rest <= 102)%nat /\
    (length (queue (lane_of F2B (reached3 true forward_once))) <= 100)%nat.
Proof.
  apply (forwarding_keeps_order true forward_once
           (reached3 true forward_once) F2B).
  vm_compute. reflexivity.
Defined.

End Proxy3Instances.

Section Proxy2Instances.
Import Proxy2.


Lemma report_never_blocks_witness :
  exists s',
    step (LReport B2F) (reached2 failing_run) = Some s' /\
    loop_of B2F s' = PExit /\
    reported (trace s') = reported (trace (reached2 failing_run))
                          ++ [send_failed].
Proof.
  apply (report_never_blocks failing_run (reached2 failing_run) B2F
           send_failed).
  - vm_compute. reflexivity.
  - vm_compute. reflexivity.
Defined.

End Proxy2Instances.

Section TransportInstances.
Import Transport.
Local Open Scope Z_scope.

Lemma ConnectPeer_connects_once_witness :
  exists t',
    ConnectPeerWithAddress "node-2" "127.0.0.1" 5001 None None demo_transport
    = (None, t') /\
    peers t' = peers demo_transport ++ ["node-2"] /\
    dealers t' = <["node-2" := created demo_transport]>
                   (dealers demo_transport) /\
    calls t' = calls demo_transport
               ++ [SubDial (endpoint "127.0.0.1" 5001);
                   NewDealer (created demo_transport) (nodeID demo_transport);
                   DealerDial (created demo_transport)
                     (endpoint "127.0.0.1" (wrap64 (5001 + 1000)))] /\
    GetPeers t' = peers demo_transport ++ ["node-2"] /\
    forall a' port' sd dd,
      ConnectPeerWithAddress "node-2" a' port' sd dd t' = (None, t').
Proof.
  apply (ConnectPeer_connects_once demo_transport "node-2" "127.0.0.1" 5001).
  vm_compute. exact (fun H => H).
Defined.


Lemma ConnectPeer_failures_witness :
  let t := demo_transport in
  let p := "node-2" in
  let a := "127.0.0.1" in
  let port := 5001 in
  let e := peer_closed in
  (exists t1,
     ConnectPeerWithAddress p a port (Some e) None t
     = (Some (Wrapped ("failed to connect sub to " +:+ p +:+ " at "
                       +:+ endpoint a port) (Some e)), t1) /\
     peers t1 = peers t /\ dealers t1 = dealers t /\
     calls t1 = calls t ++ [SubDial (endpoint a port)]) /\
  (exists t2 t3,
     ConnectPeerWithAddress p a port None (Some e) t
     = (Some (Wrapped ("failed to connect dealer to " +:+ p +:+ " at "
                       +:+ endpoint a (wrap64 (port + 1000))) (Some e)), t2) /\
     peers t2 = peers t /\ dealers t2 = dealers t /\
     calls t2 = calls t ++ [SubDial (endpoint a port);
                            NewDealer (created t) (nodeID t);
                            DealerDial (created t)
                              (endpoint a (wrap64 (port + 1000)))] /\
     ConnectPeerWithAddress p a port None None t2 = (None, t3) /\
     calls t3 = calls t2 ++ [SubDial (endpoint a port);
                             NewDealer (S (created t)) (nodeID t);
                             DealerDial (S (created t))
                               (endpoint a (wrap64 (port + 1000)))]).
Proof.
  apply (ConnectPeer_failures demo_transport "node-2" "127.0.0.1" 5001
           peer_closed).
  vm_compute. exact (fun H => H).
Defined.

Lemma Start_and_ConnectPeer_agree_witness :
  let peer := New (DefaultConfig "node-2" 5001) in
  let t := demo_transport in
  let p := "node-2" in
  let e := send_failed in
  let a := BindAddress (config peer) in
  let port := BasePort (config peer) in
  exists pubAddr routerAddr peer' t',
    Start None None peer = (None, peer') /\
    calls peer' = calls peer ++ [PubListen pubAddr;
                                 SubSetOption "SUBSCRIBE" "";
                                 RouterListen routerAddr] /\
    ConnectPeerWithAddress p a port None None t = (None, t') /\
    calls t' = calls t ++ [SubDial pubAddr;
                           NewDealer (created t) (nodeID t);
                           DealerDial (created t) routerAddr] /\
    snd (Start (Some e) None peer) = do_call (PubListen pubAddr) peer /\
    fst (Start (Some e) None peer) <> None /\
    fst (Start None (Some e) peer) <> None.
Proof.
  apply (Start_and_ConnectPeer_agree (New (DefaultConfig "node-2" 5001))
           demo_transport "node-2" send_failed).
  vm_compute. exact (fun H => H).
Defined.

Lemma BroadcastWithRetry_first_success_witness :
  let t := demo_transport in
  let msg := demo_message in
  let env := fails_once in
  let k := 1%nat in
  exists t',
    BroadcastWithRetry msg env t
    = (None, stamp (nodeID t) (To msg) (now (env (Z.of_nat k))) msg, t') /\
    msgSent t' = (msgSent t + (Z.of_nat k + 1)) mod 2 ^ 64 /\
    calls t' = calls t ++ broadcast_calls env t msg 0 k /\
    msgReceived t' = msgReceived t /\ msgDropped t' = msgDropped t.
Proof.
  apply (BroadcastWithRetry_first_success demo_transport demo_message
           fails_once 1).
  - vm_compute. split; reflexivity.
  - intros j Hj. assert (E : j = 0) by lia. subst j.
    split; [reflexivity|discriminate].
  - reflexivity.
  - reflexivity.
Defined.

End TransportInstances.
